(** * ChromeTracer: a shallow embedding of tracer.h / tracer.cpp

    The recorder ([ChromeTracer]) keeps a buffer of [TraceEvent]s, a session
    start time, an output path and an activity flag, all guarded by one mutex.
    [ScopeTrace] is the RAII timer built on top of it.

    Modelling choices.
    - A [TimePoint] is the tick count of [std::chrono::high_resolution_clock]
      (nanoseconds on libstdc++, libc++ and MSVC), an integer.  Readings and
      their differences stay far inside the 64-bit range, outside of which
      C++ leaves the subtraction undefined.
    - A [double] holding microseconds is modelled by the exact rational
      [ticks / 1000]; [duration_cast<duration<double, std::micro>>] divides
      the tick count by 1000 and rounds to binary64.  [us d] therefore
      stands for the conversion of the tick count [d].  Rounding is monotone
      and keeps the sign, so what is stated of single conversions carries
      over to the stored values: which tick count a field is the conversion
      of, the order between two conversions, and the order between a
      conversion and an integer.  Sums of stored values are not exact in
      binary64; the time line of the spans is stated on the tick counts.
    - [clock::now()] and [std::this_thread::get_id()] are inputs of the
      operation that reads them.
    - [operator<<] on a [double] and on a [std::thread::id] is platform
      defined; both renderings are the fields of the class [Platform].
    - The file system is a finite map from paths to contents, together with
      the set of paths that cannot be opened for writing and the log of the
      paths [std::ofstream] tried to open.
    - A critical section under [std::lock_guard] is one atomic step. *)

From Stdlib Require Import ZArith QArith Ascii String List DecimalString.
From stdpp Require Import base option list gmap strings.

Local Open Scope Z_scope.

(** ** Data model *)

Definition TimePoint := Z.
Definition thread_id := N.

(** [tracer.h], struct TraceEvent. *)
Record TraceEvent := mkTraceEvent {
  name : string;
  category : string;
  phase : ascii;
  timestampUs : Q;
  durationUs : Q;
  threadId : thread_id
}.

(** [tracer.h], the data members of class ChromeTracer (the mutex is the
    atomicity of the steps below). *)
Record ChromeTracer := mkChromeTracer {
  m_events : list TraceEvent;
  m_startTime : TimePoint;
  m_filepath : string;
  m_active : bool
}.

(** The state of a default-constructed recorder: [m_active = false], an empty
    vector, an empty path and the clock's epoch. *)
Definition ChromeTracer_default : ChromeTracer :=
  {| m_events := []; m_startTime := 0; m_filepath := ""; m_active := false |}.

Record FileSystem := mkFileSystem {
  fs_files : gmap string string;
  fs_denied : gset string;
  fs_opens : list string
}.

(** [std::ofstream ofs(path); ofs << text;] followed by the stream's
    destructor.  A failed open sets the stream's failbit, every later
    insertion does nothing and no exception is raised (the exception mask of a
    fresh stream is empty). *)
Definition ofstream_write (path text : string) (fs : FileSystem) : FileSystem :=
  {| fs_files := if decide (path ∈ fs_denied fs) then fs_files fs
                 else <[path := text]> (fs_files fs);
     fs_denied := fs_denied fs;
     fs_opens := fs_opens fs ++ [path] |}.

Class Platform := {
  show_double : Q -> string;
  show_tid : thread_id -> string
}.

(** [duration_cast<duration<double, std::micro>>(d).count()] for a tick
    count [d] of the nanosecond clock. *)
Definition us (d : Z) : Q := Qmake d 1000.

(** The characters and string literals of [writeToFile]. *)
Definition dquote : string := String "034"%char EmptyString.
Definition char_B : ascii := "B"%char.
Definition char_E : ascii := "E"%char.
Definition char_X : ascii := "X"%char.
Definition char_I : ascii := "I"%char.

Definition lit_header : string := "{" +:+ dquote +:+ "traceEvents" +:+ dquote +:+ ":[".
Definition lit_name : string := "{" +:+ dquote +:+ "name" +:+ dquote +:+ ":" +:+ dquote.
Definition lit_cat : string := dquote +:+ "," +:+ dquote +:+ "cat" +:+ dquote +:+ ":" +:+ dquote.
Definition lit_ph : string := dquote +:+ "," +:+ dquote +:+ "ph" +:+ dquote +:+ ":" +:+ dquote.
Definition lit_ts : string := dquote +:+ "," +:+ dquote +:+ "ts" +:+ dquote +:+ ":".
Definition lit_pid : string := "," +:+ dquote +:+ "pid" +:+ dquote +:+ ":0".
Definition lit_tid : string := "," +:+ dquote +:+ "tid" +:+ dquote +:+ ":".
Definition lit_dur : string := "," +:+ dquote +:+ "dur" +:+ dquote +:+ ":".

(** ** The recorder *)

Section Recorder.
Context `{Platform}.

(** [ChromeTracer::beginSession], tracer.cpp lines 347-354.  [now] is the
    value of [clock::now()] read inside the critical section. *)
Definition beginSession (filepath : string) (now : TimePoint)
    (r : ChromeTracer) : ChromeTracer :=
  {| m_filepath := filepath; m_events := []; m_startTime := now; m_active := true |}.

(** The part of [addDurationEvent] before the lock, lines 370-377. *)
Definition makeDurationEvent (nm cat : string) (start end_ : TimePoint)
    (tid : thread_id) (r : ChromeTracer) : TraceEvent :=
  {| name := nm; category := cat; phase := char_X;
     timestampUs := us (start - m_startTime r);
     durationUs := us (end_ - start);
     threadId := tid |}.

(** The part of [addPhaseEvent] before the lock, lines 403-410. *)
Definition makePhaseEvent (nm cat : string) (ph : ascii) (now : TimePoint)
    (tid : thread_id) (r : ChromeTracer) : TraceEvent :=
  {| name := nm; category := cat; phase := ph;
     timestampUs := us (now - m_startTime r);
     durationUs := 0%Q;
     threadId := tid |}.

(** The critical section shared by both, lines 379-381 and 412-414:
    [if (m_active) m_events.push_back(std::move(ev));]. *)
Definition pushEvent (ev : TraceEvent) (r : ChromeTracer) : ChromeTracer :=
  if m_active r
  then {| m_events := m_events r ++ [ev]; m_startTime := m_startTime r;
          m_filepath := m_filepath r; m_active := m_active r |}
  else r.

(** The loop of [writeToFile], lines 422-443; [ofs] is the text inserted
    into the stream so far and [i] the loop index. *)
Fixpoint write_events (i : nat) (evs : list TraceEvent) (ofs : string) : string :=
  match evs with
  | [] => ofs
  | ev :: rest =>
      let ofs := if (0 <? i)%nat then ofs +:+ "," else ofs in
      let tidStream := show_tid (threadId ev) in
      let ofs := ofs +:+ lit_name +:+ name ev
                     +:+ lit_cat +:+ category ev
                     +:+ lit_ph +:+ String (phase ev) EmptyString
                     +:+ lit_ts +:+ show_double (timestampUs ev)
                     +:+ lit_pid
                     +:+ lit_tid +:+ tidStream in
      let ofs := if Ascii.eqb (phase ev) char_X
                 then ofs +:+ lit_dur +:+ show_double (durationUs ev)
                 else ofs in
      write_events (S i) rest (ofs +:+ "}")
  end.

(** The text [writeToFile] inserts into the stream. *)
Definition trace_text (r : ChromeTracer) : string :=
  write_events 0 (m_events r) lit_header +:+ "]}".

(** [ChromeTracer::writeToFile], lines 417-446. *)
Definition writeToFile (r : ChromeTracer) (fs : FileSystem) : FileSystem :=
  ofstream_write (m_filepath r) (trace_text r) fs.

(** [ChromeTracer::endSession], lines 356-363. *)
Definition endSession (r : ChromeTracer) (fs : FileSystem)
    : ChromeTracer * FileSystem :=
  if negb (m_active r) then (r, fs)
  else
    let r' := {| m_events := m_events r; m_startTime := m_startTime r;
                 m_filepath := m_filepath r; m_active := false |} in
    (r', writeToFile r' fs).

(** [addDurationEvent], lines 365-382, run by one thread with no other
    thread interleaved. *)
Definition addDurationEvent (nm cat : string) (start end_ : TimePoint)
    (tid : thread_id) (r : ChromeTracer) : ChromeTracer :=
  pushEvent (makeDurationEvent nm cat start end_ tid r) r.

(** [addPhaseEvent], lines 399-415, likewise. *)
Definition addPhaseEvent (nm cat : string) (ph : ascii) (now : TimePoint)
    (tid : thread_id) (r : ChromeTracer) : ChromeTracer :=
  pushEvent (makePhaseEvent nm cat ph now tid r) r.

(** Lines 384-397. *)
Definition addBeginEvent (nm cat : string) := addPhaseEvent nm cat char_B.
Definition addEndEvent (nm cat : string) := addPhaseEvent nm cat char_E.
Definition addInstantEvent (nm cat : string) := addPhaseEvent nm cat char_I.


(** ** ScopeTrace, tracer.cpp lines 452-461 *)

Record ScopeTrace := mkScopeTrace {
  m_name : string;
  m_category : string;
  m_start : TimePoint
}.

(** The constructor; [now] is the value of [ChromeTracer::now()]. *)
Definition ScopeTrace_ctor (nm cat : string) (now : TimePoint) : ScopeTrace :=
  {| m_name := nm; m_category := cat; m_start := now |}.

(** The destructor, run by thread [tid] on the singleton recorder. *)
Definition ScopeTrace_dtor (g : ScopeTrace) (now : TimePoint) (tid : thread_id)
    (r : ChromeTracer) : ChromeTracer :=
  addDurationEvent (m_name g) (m_category g) (m_start g) now tid r.

(** How control leaves a block. *)
Inductive Exit := ExitNormal | ExitReturn | ExitThrow.

(** The block [{ ScopeTrace g(nm, cat); body }] run by thread [tid]: C++
    destroys the automatic object [g] when control leaves the block, by
    falling off its end, by [return] or by an exception passing through;
    the copy operations are deleted, so there is no second object to
    destroy.  [t_ctor] and [t_dtor] are the two clock readings. *)
Definition scoped (nm cat : string) (tid : thread_id) (t_ctor t_dtor : TimePoint)
    (body : ChromeTracer -> ChromeTracer * Exit) (r : ChromeTracer)
    : ChromeTracer * Exit :=
  let g := ScopeTrace_ctor nm cat t_ctor in
  let '(r1, e) := body r in
  (ScopeTrace_dtor g t_dtor tid r1, e).

(** ** Threads

    Several threads share the singleton.  An add call is two steps of its
    thread: the statements before the lock build the record from the
    thread's own arguments and from [m_startTime]; the critical section
    pushes it.  Steps of other threads may come in between.
    [beginSession] and [endSession] hold the lock throughout and are one
    step each.  The read of [m_startTime] before the lock is taken as
    atomic (the source does not synchronise it with [beginSession]).  For
    the three phase calls [APrepare] takes the clock and the start time with
    nothing in between; the section on a phase call read by read, further
    down, cuts the call between the two reads. *)

Inductive AddCall :=
| CallDuration (nm cat : string) (start end_ : TimePoint)
| CallBegin (nm cat : string) (now : TimePoint)
| CallEnd (nm cat : string) (now : TimePoint)
| CallInstant (nm cat : string) (now : TimePoint).

Inductive Action :=
| ABeginSession (filepath : string) (now : TimePoint)
| AEndSession
| APrepare (t : thread_id) (call : AddCall)
| ACommit (t : thread_id).

Record Config := mkConfig {
  rec : ChromeTracer;
  fsys : FileSystem;
  pending : gmap thread_id TraceEvent
}.

Definition init_config (fs : FileSystem) : Config :=
  {| rec := ChromeTracer_default; fsys := fs; pending := ∅ |}.

Definition prepare (call : AddCall) (t : thread_id) (r : ChromeTracer) : TraceEvent :=
  match call with
  | CallDuration nm cat start end_ => makeDurationEvent nm cat start end_ t r
  | CallBegin nm cat now => makePhaseEvent nm cat char_B now t r
  | CallEnd nm cat now => makePhaseEvent nm cat char_E now t r
  | CallInstant nm cat now => makePhaseEvent nm cat char_I now t r
  end.

(** One step; [None] when the action is not enabled: a thread inside an add
    call cannot start another one, and only a thread inside an add call can
    reach the critical section. *)
Definition step (a : Action) (c : Config) : option Config :=
  match a with
  | ABeginSession p now =>
      Some {| rec := beginSession p now (rec c); fsys := fsys c; pending := pending c |}
  | AEndSession =>
      let '(r, f) := endSession (rec c) (fsys c) in
      Some {| rec := r; fsys := f; pending := pending c |}
  | APrepare t call =>
      match pending c !! t with
      | Some _ => None
      | None => Some {| rec := rec c; fsys := fsys c;
                        pending := <[t := prepare call t (rec c)]> (pending c) |}
      end
  | ACommit t =>
      match pending c !! t with
      | Some ev => Some {| rec := pushEvent ev (rec c); fsys := fsys c;
                           pending := delete t (pending c) |}
      | None => None
      end
  end.

Fixpoint run (acts : list Action) (c : Config) : option Config :=
  match acts with
  | [] => Some c
  | a :: rest =>
      match step a c with
      | Some c' => run rest c'
      | None => None
      end
  end.

Definition is_commit (a : Action) : bool :=
  match a with ACommit _ => true | _ => false end.

Definition is_begin (a : Action) : bool :=
  match a with ABeginSession _ _ => true | _ => false end.

Definition is_end (a : Action) : bool :=
  match a with AEndSession => true | _ => false end.

(** The actions of thread [t]. *)
Definition by_thread (t : thread_id) (a : Action) : bool :=
  match a with
  | APrepare t' _ | ACommit t' => bool_decide (t' = t)
  | _ => false
  end.

(** No session is begun or ended by these actions. *)
Definition session_free (acts : list Action) : bool :=
  forallb (fun a => negb (is_begin a) && negb (is_end a)) acts.

(** The add calls that reach the end of their critical section. *)
Definition count_commits (acts : list Action) : nat :=
  length (filter (fun a => is_commit a = true) acts).

(** Steps of threads other than [t] only. *)
Definition others_only (t : thread_id) (acts : list Action) : bool :=
  forallb (fun a => negb (by_thread t a)) acts.

(** The value of [clock::now()] an action reads, if it reads the clock.
    [addDurationEvent] does not: its two time points come from the caller. *)
Definition reading (a : Action) : option TimePoint :=
  match a with
  | ABeginSession _ now => Some now
  | APrepare _ (CallBegin _ _ now) => Some now
  | APrepare _ (CallEnd _ _ now) => Some now
  | APrepare _ (CallInstant _ _ now) => Some now
  | _ => None
  end.

(** The clock never runs backwards along the actions, starting at [last]. *)
Fixpoint monotone_from (last : TimePoint) (acts : list Action) : Prop :=
  match acts with
  | [] => True
  | a :: rest =>
      match reading a with
      | Some now => last <= now /\ monotone_from now rest
      | None => monotone_from last rest
      end
  end.

(** Records of the three phases stamped by [addPhaseEvent] have a timestamp
    that is not negative. *)
Definition stamped_ok (ev : TraceEvent) : Prop :=
  phase ev <> char_X -> (0 <= timestampUs ev)%Q.

Definition clock_inv (last : TimePoint) (c : Config) : Prop :=
  m_startTime (rec c) <= last
  /\ Forall stamped_ok (m_events (rec c))
  /\ map_Forall (fun _ ev => stamped_ok ev) (pending c).

(** ** The output format in the words of the specification, section 6 *)

(** A string value: the caller's characters between two quotes. *)
Definition json_string (s : string) : string := dquote +:+ s +:+ dquote.

Definition json_member (kv : string * string) : string :=
  json_string (fst kv) +:+ ":" +:+ snd kv.

(** A compact object: members separated by commas, no white space. *)
Definition json_object (members : list (string * string)) : string :=
  "{" +:+ String.concat "," (map json_member members) +:+ "}".

Definition json_array (items : list string) : string :=
  "[" +:+ String.concat "," items +:+ "]".

(** The keys of an event and their values, in the order of the list in
    section 6; [dur] only for phase X. *)
Definition spec_members (ev : TraceEvent) : list (string * string) :=
  [ ("name", json_string (name ev));
    ("cat", json_string (category ev));
    ("ph", json_string (String (phase ev) EmptyString));
    ("ts", show_double (timestampUs ev));
    ("pid", "0");
    ("tid", show_tid (threadId ev)) ]
  ++ (if Ascii.eqb (phase ev) char_X
      then [("dur", show_double (durationUs ev))] else []).

Definition spec_event (ev : TraceEvent) : string := json_object (spec_members ev).

Definition spec_trace (evs : list TraceEvent) : string :=
  json_object [("traceEvents", json_array (map spec_event evs))].

Definition phase_ok (ev : TraceEvent) : Prop :=
  phase ev = char_B \/ phase ev = char_E \/ phase ev = char_X \/ phase ev = char_I.

(** Every buffered record and every record on its way to the buffer has one
    of the four phases. *)
Definition phases_inv (c : Config) : Prop :=
  Forall phase_ok (m_events (rec c))
  /\ map_Forall (fun _ ev => phase_ok ev) (pending c).

End Recorder.

(** ** Well-formed JSON text (RFC 8259)

    A recogniser in two layers run in lock step over the characters: a
    scanner that cuts the text into tokens, and a pushdown automaton over
    the tokens.  Bytes above 127 are accepted inside strings (the scanner
    does not check the UTF-8 encoding). *)

Module Json.

Inductive token :=
| TLBrace | TRBrace | TLBracket | TRBracket | TComma | TColon
| TString | TNumber | TLiteral.

(** number = [ minus ] int [ frac ] [ exp ] *)
Inductive num_state :=
| NSign | NZero | NInt | NDot | NFrac | NExp | NExpSign | NExpDigits.

Inductive lex_state :=
| LIdle
| LStr
| LEsc
| LHex (n : nat)
| LNum (st : num_state)
| LWord (rest : string).

Definition is_digit (c : ascii) : bool :=
  (48 <=? nat_of_ascii c)%nat && (nat_of_ascii c <=? 57)%nat.

Definition is_digit19 (c : ascii) : bool :=
  (49 <=? nat_of_ascii c)%nat && (nat_of_ascii c <=? 57)%nat.

Definition is_hex (c : ascii) : bool :=
  is_digit c
  || ((65 <=? nat_of_ascii c)%nat && (nat_of_ascii c <=? 70)%nat)
  || ((97 <=? nat_of_ascii c)%nat && (nat_of_ascii c <=? 102)%nat).

Definition is_ws (c : ascii) : bool :=
  Ascii.eqb c " " || Ascii.eqb c "009" || Ascii.eqb c "010" || Ascii.eqb c "013".

Definition is_exp (c : ascii) : bool := Ascii.eqb c "e" || Ascii.eqb c "E".

Definition is_sign (c : ascii) : bool := Ascii.eqb c "+" || Ascii.eqb c "-".

Definition num_start (c : ascii) : option num_state :=
  if Ascii.eqb c "-" then Some NSign
  else if Ascii.eqb c "0" then Some NZero
  else if is_digit19 c then Some NInt
  else None.

Definition num_step (st : num_state) (c : ascii) : option num_state :=
  match st with
  | NSign => if Ascii.eqb c "0" then Some NZero
             else if is_digit19 c then Some NInt else None
  | NZero => if Ascii.eqb c "." then Some NDot
             else if is_exp c then Some NExp else None
  | NInt => if is_digit c then Some NInt
            else if Ascii.eqb c "." then Some NDot
            else if is_exp c then Some NExp else None
  | NDot => if is_digit c then Some NFrac else None
  | NFrac => if is_digit c then Some NFrac
             else if is_exp c then Some NExp else None
  | NExp => if is_sign c then Some NExpSign
            else if is_digit c then Some NExpDigits else None
  | NExpSign => if is_digit c then Some NExpDigits else None
  | NExpDigits => if is_digit c then Some NExpDigits else None
  end.

Definition num_accepting (st : num_state) : bool :=
  match st with
  | NZero | NInt | NFrac | NExpDigits => true
  | _ => false
  end.

Fixpoint num_run (st : num_state) (s : string) : option num_state :=
  match s with
  | EmptyString => Some st
  | String c s' =>
      match num_step st c with
      | Some st' => num_run st' s'
      | None => None
      end
  end.

(** [s] is one JSON number, nothing before or after it. *)
Definition is_number (s : string) : bool :=
  match s with
  | EmptyString => false
  | String c s' =>
      match num_start c with
      | Some st =>
          match num_run st s' with
          | Some st' => num_accepting st'
          | None => false
          end
      | None => false
      end
  end.

(** A character that may stand unescaped inside a string. *)
Definition unescaped (c : ascii) : bool :=
  negb (Ascii.eqb c "034") && negb (Ascii.eqb c "\") && (32 <=? nat_of_ascii c)%nat.

Definition is_escape (c : ascii) : bool :=
  Ascii.eqb c "034" || Ascii.eqb c "\" || Ascii.eqb c "/" || Ascii.eqb c "b"
  || Ascii.eqb c "f" || Ascii.eqb c "n" || Ascii.eqb c "r" || Ascii.eqb c "t".

(** The scanner between two tokens. *)
Definition lex_idle (c : ascii) : option (lex_state * list token) :=
  match num_start c with
  | Some st => Some (LNum st, [])
  | None =>
      if is_ws c then Some (LIdle, [])
      else if Ascii.eqb c "{" then Some (LIdle, [TLBrace])
      else if Ascii.eqb c "}" then Some (LIdle, [TRBrace])
      else if Ascii.eqb c "[" then Some (LIdle, [TLBracket])
      else if Ascii.eqb c "]" then Some (LIdle, [TRBracket])
      else if Ascii.eqb c "," then Some (LIdle, [TComma])
      else if Ascii.eqb c ":" then Some (LIdle, [TColon])
      else if Ascii.eqb c "034" then Some (LStr, [])
      else if Ascii.eqb c "t" then Some (LWord "rue", [])
      else if Ascii.eqb c "f" then Some (LWord "alse", [])
      else if Ascii.eqb c "n" then Some (LWord "ull", [])
      else None
  end.

(** One character: the next scanner state and the tokens completed by it. *)
Definition lex_step (st : lex_state) (c : ascii) : option (lex_state * list token) :=
  match st with
  | LIdle => lex_idle c
  | LStr =>
      if Ascii.eqb c "034" then Some (LIdle, [TString])
      else if Ascii.eqb c "\" then Some (LEsc, [])
      else if unescaped c then Some (LStr, [])
      else None
  | LEsc =>
      if is_escape c then Some (LStr, [])
      else if Ascii.eqb c "u" then Some (LHex 4, [])
      else None
  | LHex n =>
      if is_hex c
      then Some (match n with S (S m) => LHex (S m) | _ => LStr end, [])
      else None
  | LNum ns =>
      match num_step ns c with
      | Some ns' => Some (LNum ns', [])
      | None =>
          if num_accepting ns
          then match lex_idle c with
               | Some (st', toks) => Some (st', TNumber :: toks)
               | None => None
               end
          else None
      end
  | LWord w =>
      match w with
      | String c' w' =>
          if Ascii.eqb c c'
          then Some (match w' with
                     | EmptyString => (LIdle, [TLiteral])
                     | _ => (LWord w', [])
                     end)
          else None
      | EmptyString => None
      end
  end.

(** What the automaton over tokens waits for. *)
Inductive expect :=
| EValue          (* a value *)
| EValueOrClose   (* after an opening bracket: a value or the closing bracket *)
| EKeyOrClose     (* after an opening brace: a member name or the closing brace *)
| EKey            (* after a comma in an object: a member name *)
| EColon          (* after a member name *)
| EAfter.         (* after a value: a comma or the end of the enclosing value *)

Inductive frame := FArr | FObj.

Definition pstate : Type := expect * list frame.

Definition open_value (tok : token) (stk : list frame) : option pstate :=
  match tok with
  | TString | TNumber | TLiteral => Some (EAfter, stk)
  | TLBracket => Some (EValueOrClose, FArr :: stk)
  | TLBrace => Some (EKeyOrClose, FObj :: stk)
  | _ => None
  end.

Definition close (f : frame) (stk : list frame) : option pstate :=
  match f, stk with
  | FArr, FArr :: stk' => Some (EAfter, stk')
  | FObj, FObj :: stk' => Some (EAfter, stk')
  | _, _ => None
  end.

Definition parse_step (p : pstate) (tok : token) : option pstate :=
  let '(e, stk) := p in
  match e with
  | EValue => open_value tok stk
  | EValueOrClose =>
      match tok with
      | TRBracket => close FArr stk
      | _ => open_value tok stk
      end
  | EKeyOrClose =>
      match tok with
      | TString => Some (EColon, stk)
      | TRBrace => close FObj stk
      | _ => None
      end
  | EKey => match tok with TString => Some (EColon, stk) | _ => None end
  | EColon => match tok with TColon => Some (EValue, stk) | _ => None end
  | EAfter =>
      match tok with
      | TComma =>
          match stk with
          | FArr :: _ => Some (EValue, stk)
          | FObj :: _ => Some (EKey, stk)
          | [] => None
          end
      | TRBracket => close FArr stk
      | TRBrace => close FObj stk
      | _ => None
      end
  end.

Fixpoint parse_tokens (p : pstate) (toks : list token) : option pstate :=
  match toks with
  | [] => Some p
  | tok :: rest =>
      match parse_step p tok with
      | Some p' => parse_tokens p' rest
      | None => None
      end
  end.

(** Scanner and automaton together. *)
Definition machine : Type := lex_state * pstate.

Definition machine_step (m : machine) (c : ascii) : option machine :=
  match lex_step (fst m) c with
  | Some (l, toks) =>
      match parse_tokens (snd m) toks with
      | Some p => Some (l, p)
      | None => None
      end
  | None => None
  end.

Fixpoint feed (m : option machine) (s : string) : option machine :=
  match s with
  | EmptyString => m
  | String c s' =>
      match m with
      | Some m0 => feed (machine_step m0 c) s'
      | None => None
      end
  end.

Definition start : machine := (LIdle, (EValue, [])).

(** At the end of the text: a number still being read is completed, and
    exactly one value must have been read. *)
Definition finish (m : machine) : bool :=
  let '(l, p) := m in
  match l with
  | LIdle => match p with (EAfter, []) => true | _ => false end
  | LNum ns =>
      num_accepting ns
      && match parse_step p TNumber with Some (EAfter, []) => true | _ => false end
  | _ => false
  end.

Definition valid (s : string) : bool :=
  match feed (Some start) s with
  | Some m => finish m
  | None => false
  end.

Fixpoint first_char (s : string) : option ascii :=
  match s with
  | EmptyString => None
  | String c s' => if is_ws c then first_char s' else Some c
  end.

(** A JSON text whose value is an object. *)
Definition valid_object (s : string) : bool :=
  valid s && match first_char s with Some c => Ascii.eqb c "{" | None => false end.

End Json.

(** A string with no double quote, no backslash and no control character. *)
Definition plain (s : string) : bool :=
  forallb Json.unescaped (list_ascii_of_string s).

(** Whether the number of double quotes in [s] is odd. *)
Fixpoint quote_parity (s : string) : bool :=
  match s with
  | EmptyString => false
  | String c s' => xorb (Ascii.eqb c "034") (quote_parity s')
  end.

Definition no_backslash (s : string) : bool :=
  forallb (fun c => negb (Ascii.eqb c "\")) (list_ascii_of_string s).

(** Whether the names and categories of the records hold an odd number of
    double quotes between them. *)
Fixpoint stray_quote (evs : list TraceEvent) : bool :=
  match evs with
  | [] => false
  | ev :: rest =>
      xorb (xorb (quote_parity (name ev)) (quote_parity (category ev)))
           (stray_quote rest)
  end.

Definition no_backslash_names (ev : TraceEvent) : Prop :=
  no_backslash (name ev) = true /\ no_backslash (category ev) = true.

(** Scanner states reached on a text without backslash, and whether the
    scanner is inside a string. *)
Definition quiet (l : Json.lex_state) : Prop :=
  match l with
  | Json.LEsc | Json.LHex _ => False
  | Json.LWord w => forallb (fun c => negb (Ascii.eqb c "034")) (list_ascii_of_string w) = true
  | _ => True
  end.

Definition in_string (l : Json.lex_state) : bool :=
  match l with Json.LStr => true | _ => false end.

(** The names of a record can stand between quotes as they are. *)
Definition plain_names (ev : TraceEvent) : Prop :=
  plain (name ev) = true /\ plain (category ev) = true.

(** The platform prints the numbers of a record as JSON numbers. *)
Definition renders_numbers `{Platform} (ev : TraceEvent) : Prop :=
  Json.is_number (show_double (timestampUs ev)) = true
  /\ Json.is_number (show_double (durationUs ev)) = true
  /\ Json.is_number (show_tid (threadId ev)) = true.

(** ** A platform for the examples

    libstdc++ prints a [std::thread::id] as the decimal value of the thread
    handle, and a [double] with at most six significant digits as its
    shortest decimal form. *)

Definition show_N (n : N) : string := DecimalString.NilZero.string_of_uint (N.to_uint n).

Definition digit_char (d : Z) : string :=
  String (ascii_of_nat (48 + Z.to_nat d)) EmptyString.

Definition show_thousandths (q : Q) : string :=
  let m := Z.abs (Qnum q) * 1000 / Zpos (Qden q) in
  let ip := m / 1000 in
  let fp := m mod 1000 in
  let d1 := fp / 100 in
  let d2 := (fp / 10) mod 10 in
  let d3 := fp mod 10 in
  (if (Qnum q <? 0) then "-" else "")
  +:+ show_N (Z.to_N ip)
  +:+ (if (fp =? 0) then ""
       else "." +:+ digit_char d1
            +:+ (if (d3 =? 0)
                 then (if (d2 =? 0) then "" else digit_char d2)
                 else digit_char d2 +:+ digit_char d3)).

#[local] Instance sample_platform : Platform :=
  {| show_double := show_thousandths; show_tid := show_N |}.

Definition fs_empty : FileSystem :=
  {| fs_files := ∅; fs_denied := ∅; fs_opens := [] |}.

Definition after (acts : list Action) (c : Config) : Config :=
  default c (run acts c).

(** A session with an instant event and a span of ten milliseconds. *)
Definition demo_recorder : ChromeTracer :=
  addDurationEvent "Work" "function" 1500 10001500 7%N
    (addInstantEvent "A" "cat" 1000 7%N
       (beginSession "t.json" 1000 ChromeTracer_default)).

(** A file system in which the directory of the trace file is missing. *)
Definition fs_no_dir : FileSystem :=
  {| fs_files := ∅; fs_denied := {["out/t.json"]}; fs_opens := [] |}.

Definition demo_start : Config :=
  after [ABeginSession "t.json" 1000] (init_config fs_empty).

(** Two threads: thread 1 brackets a region with begin and end, thread 2
    drops an instant event in between and reaches the lock first. *)
Definition demo_actions : list Action :=
  [ APrepare 1%N (CallBegin "X" "c" 1100);
    APrepare 2%N (CallInstant "A" "cat" 1150);
    ACommit 2%N;
    ACommit 1%N;
    APrepare 1%N (CallEnd "Y" "c" 1300);
    ACommit 1%N ].

(** Whether [s] holds a double quote or a backslash. *)
Definition has_quote_or_backslash (s : string) : bool :=
  existsb (fun c => Ascii.eqb c "034" || Ascii.eqb c "\") (list_ascii_of_string s).

(** One instant event with the given name in a session of its own. *)
Definition recorder_with_name (nm : string) : ChromeTracer :=
  addInstantEvent nm "cat" 1000 7%N (beginSession "t.json" 1000 ChromeTracer_default).

(** Three names: a backslash followed by a double quote, a line feed, and a
    double quote alone. *)
Definition name_escaped_quote : string := String "\" (String "034" EmptyString).
Definition name_line_feed : string := String "010" EmptyString.
Definition name_quote : string := String "034" EmptyString.

(** ** The rest of the recorder *)

(** [ChromeTracer::~ChromeTracer], tracer.cpp lines 342-345: the singleton
    is destroyed when the process exits, and its destructor ends the
    session. *)
Definition ChromeTracer_dtor `{Platform} (r : ChromeTracer) (fs : FileSystem)
    : ChromeTracer * FileSystem :=
  endSession r fs.

(** The default arguments of [beginSession] and of the [ScopeTrace]
    constructor, tracer.h lines 37 and 86. *)
Definition default_filepath : string := "trace.json".
Definition default_category : string := "function".

(** The paths [std::ofstream] is asked to open along the actions, read off
    the session calls alone: [active] and [path] are the flag and the stored
    path before the first action. *)
Fixpoint lifecycle_opens (active : bool) (path : string) (acts : list Action)
    : list string :=
  match acts with
  | [] => []
  | ABeginSession p _ :: rest => lifecycle_opens true p rest
  | AEndSession :: rest =>
      if active then path :: lifecycle_opens false path rest
      else lifecycle_opens false path rest
  | _ :: rest => lifecycle_opens active path rest
  end.

(** The paths given to [beginSession] along the actions. *)
Fixpoint begin_paths (acts : list Action) : list string :=
  match acts with
  | [] => []
  | ABeginSession p _ :: rest => p :: begin_paths rest
  | _ :: rest => begin_paths rest
  end.

(** The name and category given to each add call along the actions. *)
Definition call_labels (call : AddCall) : string * string :=
  match call with
  | CallDuration nm cat _ _ => (nm, cat)
  | CallBegin nm cat _ => (nm, cat)
  | CallEnd nm cat _ => (nm, cat)
  | CallInstant nm cat _ => (nm, cat)
  end.

Fixpoint labels_of (acts : list Action) : list (string * string) :=
  match acts with
  | [] => []
  | APrepare _ call :: rest => call_labels call :: labels_of rest
  | _ :: rest => labels_of rest
  end.

(** A record made by one of the add calls labelled in [ls]. *)
Definition from_calls (ls : list (string * string)) (ev : TraceEvent) : Prop :=
  phase_ok ev /\ In (name ev, category ev) ls.

(** Every record on its way to the buffer carries the identity of the thread
    that is making the call. *)
Definition attributed (c : Config) : Prop :=
  map_Forall (fun t ev => threadId ev = t) (pending c).

(** A record stamped by [addPhaseEvent] has no duration. *)
Definition no_duration (ev : TraceEvent) : Prop :=
  phase ev <> char_X -> durationUs ev = 0%Q.

(** ** The demonstration workloads, tracer.cpp (the application)

    One thread runs the workload.  The state is the recorder, the reading
    of the clock when it was last looked at, and the time that passes
    before each of the coming readings ([w_delays], in ticks; a steady
    clock makes them non-negative).  [sleep_for] blocks for at least the
    given time; what it blocks longer is part of the delay before the next
    reading. *)

Record World := mkWorld {
  w_tracer : ChromeTracer;
  w_clock : TimePoint;
  w_delays : list Z
}.

Definition Prog (A : Type) : Type := World -> A * World.

#[local] Instance Prog_ret : MRet Prog := fun A x w => (x, w).

#[local] Instance Prog_bind : MBind Prog :=
  fun A B f m w => let '(x, w') := m w in f x w'.

(** [ChromeTracer::now()], tracer.h line 56, and [clock::now()]. *)
Definition clock_now : Prog TimePoint := fun w =>
  let t := w_clock w + hd 0 (w_delays w) in
  (t, {| w_tracer := w_tracer w; w_clock := t; w_delays := tl (w_delays w) |}).

(** [std::this_thread::sleep_for(std::chrono::milliseconds(ms))]. *)
Definition sleep_for (ms : Z) : Prog unit := fun w =>
  (tt, {| w_tracer := w_tracer w;
          w_clock := w_clock w + Z.max 0 ms * 1000000;
          w_delays := w_delays w |}).

(** A call on [ChromeTracer::instance()]. *)
Definition on_tracer (f : ChromeTracer -> ChromeTracer) : Prog unit := fun w =>
  (tt, {| w_tracer := f (w_tracer w); w_clock := w_clock w; w_delays := w_delays w |}).

(** The macros of tracer.h lines 102-108 ([TRACER_DISABLED] not defined).
    [TRACE_SCOPE(name)] declares a [ScopeTrace] of the default category that
    lives to the end of the enclosing block, here [body];
    [TRACE_FUNCTION()] is the same with the name of the enclosing
    function. *)
Definition TRACE_SCOPE {A : Type} (tid : thread_id) (nm : string) (body : Prog A)
    : Prog A :=
  t0 ← clock_now;
  let g := ScopeTrace_ctor nm default_category t0 in
  x ← body;
  t1 ← clock_now;
  on_tracer (ScopeTrace_dtor g t1 tid);;
  mret x.

Definition TRACE_FUNCTION {A : Type} (tid : thread_id) (function : string)
    (body : Prog A) : Prog A :=
  TRACE_SCOPE tid function body.

Definition TRACE_BEGIN (tid : thread_id) (nm cat : string) : Prog unit :=
  now ← clock_now; on_tracer (addBeginEvent nm cat now tid).

Definition TRACE_END (tid : thread_id) (nm cat : string) : Prog unit :=
  now ← clock_now; on_tracer (addEndEvent nm cat now tid).

Definition TRACE_INSTANT (tid : thread_id) (nm cat : string) : Prog unit :=
  now ← clock_now; on_tracer (addInstantEvent nm cat now tid).

(** [simulateWork], application lines 13-17. *)
Definition simulateWork (tid : thread_id) (label : string) (ms : Z) : Prog unit :=
  TRACE_SCOPE tid label (sleep_for ms).

(** [loadAssets], application lines 19-25. *)
Definition loadAssets (tid : thread_id) : Prog unit :=
  TRACE_FUNCTION tid "loadAssets"
    (simulateWork tid "LoadTextures" 30;;
     simulateWork tid "LoadMeshes" 50;;
     simulateWork tid "LoadShaders" 20).

(** [computePhysics], application lines 27-38. *)
Definition computePhysics (tid : thread_id) : Prog unit :=
  TRACE_FUNCTION tid "computePhysics"
    (TRACE_BEGIN tid "BroadPhase" "physics";;
     sleep_for 15;;
     TRACE_END tid "BroadPhase" "physics";;
     TRACE_BEGIN tid "NarrowPhase" "physics";;
     sleep_for 25;;
     TRACE_END tid "NarrowPhase" "physics").

(** The record of a span from reading [s] to reading [e], and the record
    stamped at reading [now], in a session started at [st]. *)
Definition span_record (st : TimePoint) (tid : thread_id) (nm cat : string)
    (s e : TimePoint) : TraceEvent :=
  mkTraceEvent nm cat char_X (us (s - st)) (us (e - s)) tid.

Definition stamp_record (st : TimePoint) (tid : thread_id) (nm cat : string)
    (ph : ascii) (now : TimePoint) : TraceEvent :=
  mkTraceEvent nm cat ph (us (now - st)) 0 tid.

(** A world for the examples: a session begun at tick 1000, the clock there,
    and a few irregular delays. *)
Definition demo_world : World :=
  {| w_tracer := beginSession "trace.json" 1000 ChromeTracer_default;
     w_clock := 1000;
     w_delays := [200; 0; 1500; 30; 7000; 0; 12; 900] |}.

(** Two sessions: the first is ended twice, the second once. *)
Definition demo_two_sessions : list Action :=
  ABeginSession "t.json" 1000 :: demo_actions
  ++ [AEndSession; AEndSession; ABeginSession "u.json" 9000;
      APrepare 1%N (CallInstant "Z" "cat" 9100); ACommit 1%N; AEndSession].

(** A file system that already holds a file. *)
Definition fs_with_notes : FileSystem :=
  {| fs_files := {["notes.txt" := "keep"]}; fs_denied := ∅; fs_opens := [] |}.

(** ** A phase call, read by read

    Line 408 of [addPhaseEvent] calls [clock::now()] and then takes the value
    of [m_startTime] inside the subtraction, both before the lock: steps of
    other threads, [beginSession] among them, can come between the two
    reads.  The actions below cut a phase call at that point: [FReadClock]
    is the call up to the clock reading, [FReadStart] reads [m_startTime] and
    builds the record, and the critical section is the [ACommit] of before.
    [FCoarse] is a step of the model above, where the two reads of a call
    follow each other at once.  [addDurationEvent] reads no clock and
    [m_startTime] once, so its [APrepare] needs no cut. *)

Inductive FineAction :=
| FCoarse (a : Action)
| FReadClock (t : thread_id) (call : AddCall)
| FReadStart (t : thread_id).

Record FineConfig := mkFineConfig {
  coarse : Config;
  clock_taken : gmap thread_id AddCall
}.

Definition fine_init (fs : FileSystem) : FineConfig :=
  {| coarse := init_config fs; clock_taken := ∅ |}.

Definition is_phase_call (call : AddCall) : bool :=
  match call with
  | CallDuration _ _ _ _ => false
  | _ => true
  end.

(** The thread that takes a step inside an add call. *)
Definition actor (a : Action) : option thread_id :=
  match a with
  | APrepare t _ | ACommit t => Some t
  | _ => None
  end.

Section Fine.
Context `{Platform}.

(** One step; a thread that has taken the clock must read the start time
    next. *)
Definition fine_step (a : FineAction) (fc : FineConfig) : option FineConfig :=
  match a with
  | FCoarse a' =>
      match actor a' ≫= (fun t => clock_taken fc !! t) with
      | Some _ => None
      | None =>
          match step a' (coarse fc) with
          | Some c' => Some {| coarse := c'; clock_taken := clock_taken fc |}
          | None => None
          end
      end
  | FReadClock t call =>
      if is_phase_call call
      then match pending (coarse fc) !! t, clock_taken fc !! t with
           | None, None =>
               Some {| coarse := coarse fc;
                       clock_taken := <[t := call]> (clock_taken fc) |}
           | _, _ => None
           end
      else None
  | FReadStart t =>
      match clock_taken fc !! t with
      | Some call =>
          Some {| coarse :=
                    {| rec := rec (coarse fc); fsys := fsys (coarse fc);
                       pending := <[t := prepare call t (rec (coarse fc))]>
                                    (pending (coarse fc)) |};
                  clock_taken := delete t (clock_taken fc) |}
      | None => None
      end
  end.

Fixpoint fine_run (acts : list FineAction) (fc : FineConfig) : option FineConfig :=
  match acts with
  | [] => Some fc
  | a :: rest =>
      match fine_step a fc with
      | Some fc' => fine_run rest fc'
      | None => None
      end
  end.

Definition fine_after (acts : list FineAction) (fc : FineConfig) : FineConfig :=
  default fc (fine_run acts fc).

End Fine.

(** The clock value a fine action reads. *)
Definition fine_reading (a : FineAction) : option TimePoint :=
  match a with
  | FCoarse a' => reading a'
  | FReadClock t call => reading (APrepare t call)
  | FReadStart _ => None
  end.

Fixpoint fine_monotone_from (last : TimePoint) (acts : list FineAction) : Prop :=
  match acts with
  | [] => True
  | a :: rest =>
      match fine_reading a with
      | Some now => last <= now /\ fine_monotone_from now rest
      | None => fine_monotone_from last rest
      end
  end.

(** No [beginSession] comes while a thread of [open] is between its two
    reads; [open] holds the threads that are there before the first action. *)
Fixpoint calm (open : gset thread_id) (acts : list FineAction) : bool :=
  match acts with
  | [] => true
  | FReadClock t _ :: rest => calm ({[t]} ∪ open) rest
  | FReadStart t :: rest => calm (open ∖ {[t]}) rest
  | FCoarse (ABeginSession _ _) :: rest => bool_decide (open = ∅) && calm open rest
  | FCoarse _ :: rest => calm open rest
  end.

(** The start time is not after any clock value a thread has taken and not
    yet used. *)
Definition reads_inv (open : gset thread_id) (fc : FineConfig) : Prop :=
  dom (clock_taken fc) = open
  /\ map_Forall (fun _ call =>
                   match reading (APrepare 0%N call) with
                   | Some now => m_startTime (rec (coarse fc)) <= now
                   | None => True
                   end) (clock_taken fc).

(** A tick difference that the 64-bit tick counter of the clock can hold. *)
Definition in_int64 (d : Z) : Prop := - 2 ^ 63 <= d < 2 ^ 63.

(** Thread 1 takes the clock at 2000 for an instant event; the session is
    begun anew at 3000 before the thread reads the start time. *)
Definition demo_overtaken : list FineAction :=
  [ FCoarse (ABeginSession "t.json" 1000);
    FReadClock 1%N (CallInstant "A" "cat" 2000);
    FCoarse (ABeginSession "u.json" 3000);
    FReadStart 1%N;
    FCoarse (ACommit 1%N) ].

(** The same call with its two reads before the second [beginSession]. *)
Definition demo_not_overtaken : list FineAction :=
  [ FCoarse (ABeginSession "t.json" 1000);
    FReadClock 1%N (CallInstant "A" "cat" 2000);
    FCoarse (APrepare 2%N (CallDuration "W" "function" 1500 2500));
    FReadStart 1%N;
    FCoarse (ACommit 1%N);
    FCoarse (ACommit 2%N);
    FCoarse (ABeginSession "u.json" 3000);
    FReadClock 1%N (CallBegin "B" "cat" 3100);
    FReadStart 1%N;
    FCoarse (ACommit 1%N) ].

(** ** Properties *)

(** *** Strings *)

Lemma str_app_assoc (a b c : string) : (a +:+ b) +:+ c = a +:+ (b +:+ c).
Proof. induction a as [|x a IH]; [reflexivity|]. cbv [String.append] in *. fold String.append in *. now rewrite IH. Qed.

Lemma str_app_nil_r (a : string) : a +:+ "" = a.
Proof. induction a as [|x a IH]; [reflexivity|]. cbv [String.append] in *. fold String.append in *. now rewrite IH. Qed.

Lemma str_app_nil_l (a : string) : "" +:+ a = a.
Proof. reflexivity. Qed.

Lemma str_app_cons (x : ascii) (a b : string) : String x a +:+ b = String x (a +:+ b).
Proof. reflexivity. Qed.

Ltac str_norm :=
  repeat (rewrite ?str_app_assoc, ?str_app_cons, ?str_app_nil_l, ?str_app_nil_r).

Section Properties.
Context `{Platform}.

(** *** The text written by [writeToFile] *)

(** One pass of the loop body appends the event in the format of section 6. *)
Lemma spec_event_text (ev : TraceEvent) :
  spec_event ev =
  lit_name +:+ name ev +:+ lit_cat +:+ category ev
  +:+ lit_ph +:+ String (phase ev) EmptyString
  +:+ lit_ts +:+ show_double (timestampUs ev)
  +:+ lit_pid +:+ lit_tid +:+ show_tid (threadId ev)
  +:+ (if Ascii.eqb (phase ev) char_X
       then lit_dur +:+ show_double (durationUs ev) else "")
  +:+ "}".
Proof.
  unfold spec_event, spec_members, json_object, json_member, json_string,
    lit_name, lit_cat, lit_ph, lit_ts, lit_pid, lit_tid, lit_dur, dquote.
  destruct (Ascii.eqb (phase ev) char_X); cbn [map fst snd app String.concat];
    str_norm; reflexivity.
Qed.

Lemma write_events_spec (evs : list TraceEvent) :
  forall (i : nat) (ofs : string),
    write_events i evs ofs =
    ofs +:+ (match evs with
             | [] => ""
             | _ => if (0 <? i)%nat then "," else ""
             end)
        +:+ String.concat "," (map spec_event evs).
Proof.
  induction evs as [|ev rest IH]; intros i ofs.
  - cbn. now rewrite !str_app_nil_r.
  - cbn [write_events]. rewrite IH.
    destruct rest as [|ev' rest']; destruct i as [|i'];
      cbn [map String.concat Nat.ltb Nat.leb];
      rewrite (spec_event_text ev);
      destruct (Ascii.eqb (phase ev) char_X);
      str_norm; reflexivity.
Qed.

Lemma trace_text_spec (r : ChromeTracer) :
  trace_text r = spec_trace (m_events r).
Proof.
  unfold trace_text. rewrite write_events_spec.
  unfold spec_trace, json_object, json_array, json_member, json_string,
    lit_header, dquote.
  cbn [map fst snd String.concat Nat.ltb Nat.leb].
  destruct (m_events r); str_norm; reflexivity.
Qed.

(** *** Phases of the records a run can hold *)

Lemma prepare_phase_ok (call : AddCall) (t : thread_id) (r : ChromeTracer) :
  phase_ok (prepare call t r).
Proof. destruct call; cbv [prepare makeDurationEvent makePhaseEvent phase_ok phase]; auto. Qed.

Lemma pushEvent_events (ev : TraceEvent) (r : ChromeTracer) :
  m_events (pushEvent ev r) = if m_active r then m_events r ++ [ev] else m_events r.
Proof. unfold pushEvent. now destruct (m_active r). Qed.

Lemma step_phases_inv (a : Action) (c c' : Config) :
  phases_inv c -> step a c = Some c' -> phases_inv c'.
Proof.
  intros [Hev Hpend] Hstep. destruct a as [p now| |t call|t]; cbn in Hstep.
  - inversion Hstep; subst; clear Hstep. split; cbn; [constructor|assumption].
  - unfold endSession in Hstep. destruct (m_active (rec c)); cbn in Hstep;
      inversion Hstep; subst; clear Hstep; split; assumption.
  - destruct (pending c !! t) eqn:E; [discriminate|].
    inversion Hstep; subst; clear Hstep. split; cbn; [assumption|].
    apply map_Forall_insert_2; [apply prepare_phase_ok|assumption].
  - destruct (pending c !! t) as [ev|] eqn:E; [|discriminate].
    inversion Hstep; subst; clear Hstep. split; cbn.
    + rewrite pushEvent_events. destruct (m_active (rec c)); [|assumption].
      apply Forall_app; split; [assumption|].
      constructor; [exact (Hpend t ev E)|constructor].
    + intros k x Hk. apply lookup_delete_Some in Hk as [_ Hk]. exact (Hpend k x Hk).
Qed.

Lemma run_phases_inv (acts : list Action) :
  forall c c', phases_inv c -> run acts c = Some c' -> phases_inv c'.
Proof.
  induction acts as [|a acts IH]; intros c c' Hinv Hrun; cbn in Hrun.
  - now inversion Hrun; subst.
  - destruct (step a c) as [c1|] eqn:E; [|discriminate].
    eapply IH; [|exact Hrun]. eapply step_phases_inv; eauto.
Qed.

Lemma init_phases_inv (fs : FileSystem) : phases_inv (init_config fs).
Proof. split; cbn; [constructor|apply map_Forall_empty]. Qed.

(** C1: when the session is active and the stored path can be opened,
    [endSession] opens that path once and leaves in it the single object
    with the one key traceEvents whose array holds the buffered records in
    order, each a compact object with the keys name, cat, ph, ts, pid, tid
    and, exactly for phase X, dur last; name and cat are the caller's
    characters, pid is the literal 0, ts and tid are the platform's
    renderings, and every record a run of the public operations can buffer
    has phase B, E, X or I. *)
Theorem C1_endSession_writes_trace_format
    (r : ChromeTracer) (fs : FileSystem)
    (Hactive : m_active r = true)
    (Hopen : m_filepath r ∉ fs_denied fs) :
  fs_files (snd (endSession r fs)) !! m_filepath r = Some (spec_trace (m_events r))
  /\ fs_opens (snd (endSession r fs)) = fs_opens fs ++ [m_filepath r]
  /\ (forall ev, map fst (spec_members ev) =
                 ["name"; "cat"; "ph"; "ts"; "pid"; "tid"]
                 ++ (if Ascii.eqb (phase ev) char_X then ["dur"] else []))
  /\ (forall ev, In "dur" (map fst (spec_members ev)) <-> phase ev = char_X)
  /\ (forall ev, In ("pid", "0") (spec_members ev)
                 /\ In ("name", json_string (name ev)) (spec_members ev)
                 /\ In ("cat", json_string (category ev)) (spec_members ev))
  /\ (forall fs0 acts c,
        run acts (init_config fs0) = Some c -> rec c = r ->
        Forall phase_ok (m_events r)).
Proof.
  split; [|split; [|split; [|split; [|split]]]].
  - unfold endSession. rewrite Hactive. cbn.
    destruct (decide (m_filepath r ∈ fs_denied fs)) as [Hin|_]; [contradiction|].
    rewrite lookup_insert_eq. f_equal. apply (trace_text_spec (mkChromeTracer _ _ _ _)).
  - unfold endSession. rewrite Hactive. reflexivity.
  - intros ev. unfold spec_members. now destruct (Ascii.eqb (phase ev) char_X).
  - intros ev. unfold spec_members.
    destruct (Ascii.eqb_spec (phase ev) char_X) as [E|E]; cbn; split; intros Hx;
      try assumption; try tauto.
    + repeat (destruct Hx as [Hx|Hx]; [discriminate Hx|]). destruct Hx.
  - intros ev. unfold spec_members. cbn. tauto.
  - intros fs0 acts c Hrun <-.
    exact (proj1 (run_phases_inv acts _ _ (init_phases_inv fs0) Hrun)).
Qed.

(** *** Appending while no session is active *)

Lemma pushEvent_inactive (ev : TraceEvent) (r : ChromeTracer) :
  m_active r = false -> pushEvent ev r = r.
Proof. intros Hoff. unfold pushEvent. now rewrite Hoff. Qed.

Lemma config_eta (c : Config) :
  {| rec := rec c; fsys := fsys c; pending := pending c |} = c.
Proof. now destruct c. Qed.

(** C2: while the session is inactive each of the four add operations
    returns the recorder as it found it (nothing is buffered, no failure is
    possible: the operations are total), the critical section of an add call
    that any thread reaches changes neither the recorder nor the file system,
    and whatever is done afterwards gives the result it would have given had
    the call not been made. *)
Theorem C2_inactive_add_is_dropped (r : ChromeTracer) (Hoff : m_active r = false) :
  (forall nm cat start end_ tid, addDurationEvent nm cat start end_ tid r = r)
  /\ (forall nm cat now tid,
        addBeginEvent nm cat now tid r = r
        /\ addEndEvent nm cat now tid r = r
        /\ addInstantEvent nm cat now tid r = r)
  /\ (forall c t c',
        rec c = r -> step (ACommit t) c = Some c' ->
        rec c' = r /\ fsys c' = fsys c)
  /\ (forall c t call rest,
        rec c = r -> pending c !! t = None ->
        run (APrepare t call :: ACommit t :: rest) c = run rest c).
Proof.
  split; [|split; [|split]].
  - intros. apply pushEvent_inactive, Hoff.
  - intros. unfold addBeginEvent, addEndEvent, addInstantEvent, addPhaseEvent.
    repeat split; apply pushEvent_inactive, Hoff.
  - intros c t c' Hr Hstep. cbn in Hstep.
    destruct (pending c !! t) as [ev|]; [|discriminate].
    inversion Hstep; subst; clear Hstep. cbn.
    split; [apply pushEvent_inactive, Hoff|reflexivity].
  - intros c t call rest Hr Hnone. cbn [run step]. rewrite Hnone.
    cbn [pending rec fsys]. rewrite lookup_insert_eq.
    rewrite delete_insert_id by exact Hnone.
    rewrite pushEvent_inactive by (rewrite Hr; exact Hoff).
    now rewrite config_eta.
Qed.

(** C3: [beginSession] leaves an empty buffer, the clock reading as start
    time, the given path and an active session, whatever the recorder held
    before (so also on a repeated call); the file system is not touched,
    records of the previous session are not written anywhere, and a flush
    that follows at once writes the empty trace. *)
Theorem C3_beginSession_starts_fresh (r : ChromeTracer) (path : string) (now : TimePoint) :
  m_events (beginSession path now r) = []
  /\ m_startTime (beginSession path now r) = now
  /\ m_filepath (beginSession path now r) = path
  /\ m_active (beginSession path now r) = true
  /\ (forall r', beginSession path now r' = beginSession path now r)
  /\ (forall c c', rec c = r -> step (ABeginSession path now) c = Some c' ->
        rec c' = beginSession path now r /\ fsys c' = fsys c /\ pending c' = pending c)
  /\ (forall fs, trace_text (beginSession path now r) = spec_trace []
        /\ snd (endSession (beginSession path now r) fs)
           = ofstream_write path (spec_trace []) fs).
Proof.
  do 5 (split; [reflexivity|]). split.
  - intros c c' Hr Hstep. cbn in Hstep. inversion Hstep; subst. now cbn.
  - intros fs. split.
    + apply (trace_text_spec (beginSession path now r)).
    + unfold endSession, writeToFile. cbn.
      now rewrite (trace_text_spec (mkChromeTracer [] now path false)).
Qed.

(** *** Ending a session *)

Lemma endSession_inactive (r : ChromeTracer) (fs : FileSystem) :
  m_active r = false -> endSession r fs = (r, fs).
Proof. intros Hoff. unfold endSession. now rewrite Hoff. Qed.

Lemma endSession_active (r : ChromeTracer) (fs : FileSystem) :
  m_active r = true ->
  endSession r fs =
  (mkChromeTracer (m_events r) (m_startTime r) (m_filepath r) false,
   ofstream_write (m_filepath r) (spec_trace (m_events r)) fs).
Proof.
  intros Hon. unfold endSession, writeToFile. rewrite Hon. cbn.
  f_equal. f_equal. apply (trace_text_spec (mkChromeTracer _ _ _ _)).
Qed.

Lemma endSession_leaves_inactive (r : ChromeTracer) (fs : FileSystem) :
  m_active (fst (endSession r fs)) = false.
Proof.
  destruct (m_active r) eqn:E.
  - now rewrite endSession_active.
  - now rewrite endSession_inactive.
Qed.

(** C4: on an inactive session [endSession] returns the recorder and the
    file system unchanged (no stream is opened); a second call right after a
    first one is such a call, so it changes nothing; on an active session the
    call clears the flag, keeps buffer, path and start time, and opens the
    stored path exactly once, writing the serialised buffer when the open
    succeeds. *)
Theorem C4_endSession_only_when_active (r : ChromeTracer) (fs : FileSystem) :
  (m_active r = false -> endSession r fs = (r, fs))
  /\ endSession (fst (endSession r fs)) (snd (endSession r fs)) = endSession r fs
  /\ (m_active r = true ->
      fst (endSession r fs)
      = mkChromeTracer (m_events r) (m_startTime r) (m_filepath r) false
      /\ fs_opens (snd (endSession r fs)) = fs_opens fs ++ [m_filepath r]
      /\ (m_filepath r ∉ fs_denied fs ->
          fs_files (snd (endSession r fs))
          = <[m_filepath r := spec_trace (m_events r)]> (fs_files fs))
      /\ (m_filepath r ∈ fs_denied fs ->
          fs_files (snd (endSession r fs)) = fs_files fs)).
Proof.
  split; [apply endSession_inactive|split].
  - rewrite (endSession_inactive (fst (endSession r fs)))
      by apply endSession_leaves_inactive.
    now destruct (endSession r fs).
  - intros Hon. rewrite endSession_active by exact Hon. cbn.
    repeat split; intros Hp;
      destruct (decide (m_filepath r ∈ fs_denied fs)); done.
Qed.

(** *** Threads: what a step does to the buffer *)

Lemma run_app (a b : list Action) :
  forall c, run (a ++ b) c = match run a c with Some c1 => run b c1 | None => None end.
Proof.
  induction a as [|x a IH]; intros c; cbn; [reflexivity|].
  destruct (step x c); [apply IH|reflexivity].
Qed.

(** Outside [beginSession] and [endSession] a step keeps the session and
    either leaves the buffer alone or, for the critical section of an add
    call during an active session, puts one record at its end. *)
Lemma step_session_free (a : Action) (c c' : Config) :
  is_begin a = false -> is_end a = false -> step a c = Some c' ->
  m_active (rec c') = m_active (rec c)
  /\ m_filepath (rec c') = m_filepath (rec c)
  /\ m_startTime (rec c') = m_startTime (rec c)
  /\ fsys c' = fsys c
  /\ exists l, m_events (rec c') = m_events (rec c) ++ l
       /\ length l = (if is_commit a && m_active (rec c) then 1 else 0)%nat.
Proof.
  intros Hb He Hstep. destruct a as [p now| |t call|t]; try discriminate; cbn in Hstep.
  - destruct (pending c !! t); [discriminate|]. inversion Hstep; subst; cbn.
    repeat split. exists []. now rewrite app_nil_r.
  - destruct (pending c !! t) as [ev|]; [|discriminate]. inversion Hstep; subst; cbn.
    unfold pushEvent. destruct (m_active (rec c)) eqn:E; cbn; rewrite ?E; repeat split.
    + now exists [ev].
    + exists []. now rewrite app_nil_r.
Qed.

Lemma session_free_cons (a : Action) (acts : list Action) :
  session_free (a :: acts) = true ->
  is_begin a = false /\ is_end a = false /\ session_free acts = true.
Proof.
  unfold session_free. cbn. intros Hf.
  apply andb_prop in Hf as [Ha Hr]. apply andb_prop in Ha as [Hb He].
  apply negb_true_iff in Hb, He. auto.
Qed.

Lemma session_free_app (a b : list Action) :
  session_free (a ++ b) = true <-> session_free a = true /\ session_free b = true.
Proof. unfold session_free. rewrite forallb_app. apply andb_true_iff. Qed.

Lemma count_commits_cons (a : Action) (acts : list Action) :
  count_commits (a :: acts) = ((if is_commit a then 1 else 0) + count_commits acts)%nat.
Proof.
  unfold count_commits. rewrite filter_cons.
  destruct (decide (is_commit a = true)) as [E|E].
  - now rewrite E.
  - apply not_true_is_false in E. now rewrite E.
Qed.

Lemma run_session_free (acts : list Action) :
  forall c c',
    session_free acts = true -> m_active (rec c) = true -> run acts c = Some c' ->
    m_active (rec c') = true
    /\ m_filepath (rec c') = m_filepath (rec c)
    /\ m_startTime (rec c') = m_startTime (rec c)
    /\ fsys c' = fsys c
    /\ exists l, m_events (rec c') = m_events (rec c) ++ l
         /\ length l = count_commits acts.
Proof.
  induction acts as [|a acts IH]; intros c c' Hfree Hon Hrun.
  - cbn in Hrun. inversion Hrun; subst. repeat split; try assumption.
    exists []. now rewrite app_nil_r.
  - apply session_free_cons in Hfree as (Hb & He & Hfree). cbn in Hrun.
    destruct (step a c) as [c1|] eqn:Hstep; [|discriminate].
    destruct (step_session_free a c c1 Hb He Hstep) as (Ha & Hp & Hs & Hf & l1 & Hl1 & Hn1).
    rewrite Hon in Ha, Hn1.
    destruct (IH c1 c' Hfree Ha Hrun) as (Ha' & Hp' & Hs' & Hf' & l2 & Hl2 & Hn2).
    repeat split; try congruence.
    exists (l1 ++ l2). split.
    + rewrite Hl2, Hl1. now rewrite <- app_assoc.
    + rewrite length_app, Hn1, Hn2, count_commits_cons, andb_true_r. reflexivity.
Qed.

(** Steps of other threads leave the record a thread has built untouched. *)
Lemma step_other_thread (t : thread_id) (a : Action) (c c' : Config) :
  by_thread t a = false -> step a c = Some c' -> pending c' !! t = pending c !! t.
Proof.
  intros Hby Hstep. destruct a as [p now| |t' call|t']; cbn in Hby, Hstep.
  - now inversion Hstep.
  - destruct (endSession (rec c) (fsys c)). now inversion Hstep.
  - apply bool_decide_eq_false in Hby.
    destruct (pending c !! t'); [discriminate|]. inversion Hstep; subst; cbn.
    now apply lookup_insert_ne.
  - apply bool_decide_eq_false in Hby.
    destruct (pending c !! t'); [|discriminate]. inversion Hstep; subst; cbn.
    now apply lookup_delete_ne.
Qed.

Lemma run_other_threads (t : thread_id) (acts : list Action) :
  forall c c', others_only t acts = true -> run acts c = Some c' ->
    pending c' !! t = pending c !! t.
Proof.
  induction acts as [|a acts IH]; intros c c' Ho Hrun; cbn in Hrun.
  - now inversion Hrun.
  - unfold others_only in Ho. cbn in Ho. apply andb_prop in Ho as [Ha Ho].
    apply negb_true_iff in Ha.
    destruct (step a c) as [c1|] eqn:Hstep; [|discriminate].
    rewrite (IH c1 c' Ho Hrun). eapply step_other_thread; eauto.
Qed.

(** C5: the statements of [addDurationEvent] before the lock build the
    record from the caller's two time points and the session start alone:
    timestamp [start - m_startTime] and duration [end - start], each the tick
    difference divided by 1000 (microseconds, with their fraction), phase X
    and the calling thread's identity; they touch neither the buffer nor the
    file system.  However many steps other threads take before the thread
    gets the lock, the record it then appends (when the session is active) is
    that same record. *)
Theorem C5_duration_event_is_built_before_the_lock
    (c c1 c2 : Config) (t : thread_id) (nm cat : string)
    (start end_ : TimePoint) (acts : list Action)
    (Hprep : step (APrepare t (CallDuration nm cat start end_)) c = Some c1)
    (Hothers : others_only t acts = true)
    (Hrun : run acts c1 = Some c2) :
  let ev := mkTraceEvent nm cat char_X
              (us (start - m_startTime (rec c))) (us (end_ - start)) t in
  rec c1 = rec c /\ fsys c1 = fsys c
  /\ pending c1 !! t = Some ev
  /\ pending c2 !! t = Some ev
  /\ (timestampUs ev * 1000 == inject_Z (start - m_startTime (rec c)))%Q
  /\ (durationUs ev * 1000 == inject_Z (end_ - start))%Q
  /\ exists c3, step (ACommit t) c2 = Some c3
       /\ m_events (rec c3)
          = (if m_active (rec c2) then m_events (rec c2) ++ [ev] else m_events (rec c2))
       /\ pending c3 !! t = None.
Proof.
  intros ev. cbn in Hprep.
  destruct (pending c !! t) eqn:Hfree; [discriminate|].
  inversion Hprep; subst c1; clear Hprep. cbn [rec fsys pending].
  assert (Hp1 : <[t := makeDurationEvent nm cat start end_ t (rec c)]> (pending c) !! t
                = Some ev) by apply lookup_insert_eq.
  assert (Hp2 : pending c2 !! t = Some ev).
  { rewrite (run_other_threads t acts _ c2 Hothers Hrun). exact Hp1. }
  repeat split; try assumption.
  - unfold ev, us, Qeq. cbn. lia.
  - unfold ev, us, Qeq. cbn. lia.
  - cbn [step]. rewrite Hp2. eexists. split; [reflexivity|]. cbn [rec pending].
    split; [apply pushEvent_events|apply lookup_delete_eq].
Qed.

(** *** One session *)

Lemma run_begin (p : string) (t0 : TimePoint) (acts : list Action) (c0 c : Config) :
  session_free acts = true ->
  run (ABeginSession p t0 :: acts) c0 = Some c ->
  m_active (rec c) = true
  /\ m_filepath (rec c) = p
  /\ fsys c = fsys c0
  /\ length (m_events (rec c)) = count_commits acts.
Proof.
  intros Hfree Hrun. cbn [run step] in Hrun.
  destruct (run_session_free acts
              (mkConfig (beginSession p t0 (rec c0)) (fsys c0) (pending c0))
              c Hfree eq_refl Hrun)
    as (Ha & Hp & _ & Hf & l & Hl & Hn).
  cbn in Hp, Hf, Hl. repeat split; try assumption. now rewrite Hl.
Qed.

(** Later steps of a session keep what the buffer holds, place by place. *)
Lemma run_keeps_records (acts : list Action) (c c' : Config) (i : nat) (ev : TraceEvent) :
  session_free acts = true -> m_active (rec c) = true -> run acts c = Some c' ->
  m_events (rec c) !! i = Some ev -> m_events (rec c') !! i = Some ev.
Proof.
  intros Hfree Hon Hrun Hi.
  destruct (run_session_free acts c c' Hfree Hon Hrun) as (_ & _ & _ & _ & l & Hl & _).
  rewrite Hl. now apply lookup_app_l_Some.
Qed.

Lemma step_end_keeps_events (c c' : Config) :
  step AEndSession c = Some c' -> m_events (rec c') = m_events (rec c).
Proof.
  cbn. unfold endSession. destruct (m_active (rec c)); cbn; intros Hs;
    now inversion Hs.
Qed.

Lemma commit_appends (t : thread_id) (ev : TraceEvent) (c c' : Config) :
  m_active (rec c) = true -> pending c !! t = Some ev ->
  step (ACommit t) c = Some c' ->
  m_events (rec c') = m_events (rec c) ++ [ev] /\ m_active (rec c') = true.
Proof.
  intros Hon Hev Hstep. cbn in Hstep. rewrite Hev in Hstep.
  inversion Hstep; subst; cbn. unfold pushEvent. rewrite Hon. cbn. auto.
Qed.

(** C6: in a session (a [beginSession], then steps of any threads in any
    interleaving that neither begin nor end a session, then [endSession])
    the flushed buffer holds exactly as many records as add calls completed
    their critical section, and that buffer is what lands in the file; a
    record that is in the buffer at some point of the session is at the same
    place, unchanged, at the end; and of two calls of one thread the record
    of the earlier one stands before the record of the later one. *)
Theorem C6_session_keeps_every_record
    (c0 c' : Config) (p : string) (t0 : TimePoint) (acts : list Action)
    (Hfree : session_free acts = true)
    (Hrun : run (ABeginSession p t0 :: acts ++ [AEndSession]) c0 = Some c') :
  length (m_events (rec c')) = count_commits acts
  /\ (p ∉ fs_denied (fsys c0) ->
      fs_files (fsys c') !! p = Some (spec_trace (m_events (rec c'))))
  /\ (forall acts1 acts2 c1 i ev,
        acts = acts1 ++ acts2 ->
        run (ABeginSession p t0 :: acts1) c0 = Some c1 ->
        m_events (rec c1) !! i = Some ev ->
        m_events (rec c') !! i = Some ev)
  /\ (forall acts1 acts2 acts3 t c1 c2 evA evB,
        acts = acts1 ++ ACommit t :: acts2 ++ ACommit t :: acts3 ->
        run (ABeginSession p t0 :: acts1) c0 = Some c1 ->
        pending c1 !! t = Some evA ->
        run (ABeginSession p t0 :: acts1 ++ ACommit t :: acts2) c0 = Some c2 ->
        pending c2 !! t = Some evB ->
        exists i j, (i < j)%nat
          /\ m_events (rec c') !! i = Some evA
          /\ m_events (rec c') !! j = Some evB).
Proof.
  rewrite app_comm_cons, run_app in Hrun.
  destruct (run (ABeginSession p t0 :: acts) c0) as [c|] eqn:Hsess; [|discriminate].
  destruct (run_begin p t0 acts c0 c Hfree Hsess) as (Hon & Hpath & Hfs & Hlen).
  assert (Hev : m_events (rec c') = m_events (rec c)).
  { cbn [run] in Hrun. destruct (step AEndSession c) as [c2|] eqn:E; [|discriminate].
    inversion Hrun; subst. now apply step_end_keeps_events. }
  assert (Hkeep : forall acts1 acts2 c1 i ev,
             acts = acts1 ++ acts2 ->
             run (ABeginSession p t0 :: acts1) c0 = Some c1 ->
             m_events (rec c1) !! i = Some ev ->
             m_events (rec c') !! i = Some ev).
  { intros acts1 acts2 c1 i ev -> Hrun1 Hi.
    apply session_free_app in Hfree as [Hf1 Hf2].
    destruct (run_begin p t0 acts1 c0 c1 Hf1 Hrun1) as (Hon1 & _).
    rewrite app_comm_cons, run_app, Hrun1 in Hsess.
    rewrite Hev. eapply run_keeps_records; eauto. }
  split; [congruence|split; [|split; [exact Hkeep|]]].
  - intros Hopen. cbn [run step] in Hrun.
    rewrite endSession_active in Hrun by exact Hon.
    inversion Hrun; subst c'; clear Hrun. cbn. rewrite Hpath, Hfs.
    destruct (decide (p ∈ fs_denied (fsys c0))); [contradiction|].
    apply lookup_insert_eq.
  - intros acts1 acts2 acts3 t c1 c2 evA evB Hacts Hrun1 HA Hrun2 HB.
    assert (Hf' := Hfree). rewrite Hacts in Hf'.
    apply session_free_app in Hf' as [Hf1 Hf23].
    apply session_free_cons in Hf23 as (_ & _ & Hf23).
    apply session_free_app in Hf23 as [Hf2 Hf3].
    destruct (run_begin p t0 acts1 c0 c1 Hf1 Hrun1) as (Hon1 & _).
    (* the first commit *)
    rewrite app_comm_cons, run_app, Hrun1 in Hrun2. cbn [run] in Hrun2.
    destruct (step (ACommit t) c1) as [c1'|] eqn:HcA; [|discriminate].
    destruct (commit_appends t evA c1 c1' Hon1 HA HcA) as [HevA Hon1'].
    destruct (run_session_free acts2 c1' c2 Hf2 Hon1' Hrun2)
      as (Hon2 & _ & _ & _ & l2 & Hl2 & _).
    (* the second commit happens inside the session *)
    assert (Hsplit : acts = (acts1 ++ ACommit t :: acts2) ++ ACommit t :: acts3).
    { rewrite Hacts. now rewrite <- app_assoc. }
    assert (Hrun3 : exists c2', step (ACommit t) c2 = Some c2').
    { cbn [step]. rewrite HB. eauto. }
    destruct Hrun3 as [c2' HcB].
    destruct (commit_appends t evB c2 c2' Hon2 HB HcB) as [HevB _].
    assert (Hrun2' : run (ABeginSession p t0 :: (acts1 ++ ACommit t :: acts2) ++ [ACommit t]) c0
                     = Some c2').
    { rewrite app_comm_cons, run_app.
      rewrite app_comm_cons, run_app, Hrun1. cbn [run]. rewrite HcA, Hrun2.
      cbn [run]. now rewrite HcB. }
    exists (length (m_events (rec c1))), (length (m_events (rec c2))).
    split; [|split].
    + rewrite Hl2, HevA, !length_app. cbn. lia.
    + apply (Hkeep ((acts1 ++ ACommit t :: acts2) ++ [ACommit t]) acts3 c2').
      * rewrite Hsplit. rewrite <- (app_assoc _ [ACommit t] acts3). reflexivity.
      * exact Hrun2'.
      * rewrite HevB, Hl2, HevA.
        rewrite <- !app_assoc. rewrite lookup_app_r by lia.
        rewrite Nat.sub_diag. reflexivity.
    + apply (Hkeep ((acts1 ++ ACommit t :: acts2) ++ [ACommit t]) acts3 c2').
      * rewrite Hsplit. rewrite <- (app_assoc _ [ACommit t] acts3). reflexivity.
      * exact Hrun2'.
      * rewrite HevB. rewrite lookup_app_r by lia.
        rewrite Nat.sub_diag. reflexivity.
Qed.

(** *** ScopeTrace *)

Lemma us_nonneg (a : Z) : (0 <= us a)%Q <-> 0 <= a.
Proof. unfold us, Qle. cbn. lia. Qed.

(** C7: the constructor stores the clock reading; leaving the block, however
    it is left, runs the destructor once, which is
    [addDurationEvent(name, category, storedStart, now())]: during an active
    session the buffer grows by exactly one record, of phase X, with the
    names given to the constructor and the two readings' difference as
    duration, so a destructor that runs at least [d] microseconds after the
    constructor gives a duration of at least [d]. *)
Theorem C7_scope_trace_records_its_block
    (nm cat : string) (tid : thread_id) (t_ctor t_dtor : TimePoint)
    (body : ChromeTracer -> ChromeTracer * Exit)
    (r r1 : ChromeTracer) (e : Exit) (d : Q)
    (Hbody : body r = (r1, e))
    (Hactive : m_active r1 = true)
    (Hdelay : (d <= us (t_dtor - t_ctor))%Q) :
  m_start (ScopeTrace_ctor nm cat t_ctor) = t_ctor
  /\ snd (scoped nm cat tid t_ctor t_dtor body r) = e
  /\ fst (scoped nm cat tid t_ctor t_dtor body r)
     = addDurationEvent nm cat t_ctor t_dtor tid r1
  /\ exists ev,
       m_events (fst (scoped nm cat tid t_ctor t_dtor body r)) = m_events r1 ++ [ev]
       /\ name ev = nm /\ category ev = cat /\ phase ev = char_X
       /\ threadId ev = tid
       /\ durationUs ev = us (t_dtor - t_ctor)
       /\ (d <= durationUs ev)%Q.
Proof.
  unfold scoped. rewrite Hbody. cbn [fst snd].
  unfold ScopeTrace_dtor, ScopeTrace_ctor. cbn [m_name m_category m_start].
  repeat split.
  exists (makeDurationEvent nm cat t_ctor t_dtor tid r1).
  unfold addDurationEvent. rewrite pushEvent_events, Hactive.
  repeat split. exact Hdelay.
Qed.

(** *** Timestamps *)

Lemma prepare_stamped_ok (last : TimePoint) (t : thread_id) (call : AddCall) (r : ChromeTracer) :
  m_startTime r <= last ->
  match reading (APrepare t call) with
  | Some now => last <= now
  | None => True
  end ->
  stamped_ok (prepare call t r).
Proof.
  intros Hstart Hread Hph. destruct call; cbn in *;
    try (apply us_nonneg; lia). now contradiction Hph.
Qed.

Lemma step_clock_inv (last : TimePoint) (a : Action) (c c' : Config) :
  clock_inv last c -> step a c = Some c' ->
  match reading a with
  | Some now => last <= now -> clock_inv now c'
  | None => clock_inv last c'
  end.
Proof.
  intros (Hs & He & Hp) Hstep.
  destruct a as [p now| |t call|t]; cbn in Hstep.
  - inversion Hstep; subst; clear Hstep. cbn. intros _.
    split; [cbn; lia|split; [constructor|exact Hp]].
  - unfold endSession in Hstep. destruct (m_active (rec c)); cbn in Hstep;
      inversion Hstep; subst; clear Hstep; cbn; repeat split; assumption.
  - destruct (pending c !! t) eqn:E; [discriminate|].
    inversion Hstep; subst; clear Hstep.
    assert (Hgen : forall now', last <= now' ->
              match reading (APrepare t call) with
              | Some now => now = now'
              | None => True
              end ->
              clock_inv now' {| rec := rec c; fsys := fsys c;
                   pending := <[t:=prepare call t (rec c)]> (pending c) |}).
    { intros now' Hle Hrd. split; [cbn; lia|split; [exact He|]]. cbn.
      apply map_Forall_insert_2; [|exact Hp].
      apply (prepare_stamped_ok last); [exact Hs|].
      destruct (reading (APrepare t call)); [lia|exact I]. }
    destruct (reading (APrepare t call)) as [now|] eqn:Hr.
    + intros Hle. apply Hgen; [exact Hle|reflexivity].
    + apply Hgen; [lia|exact I].
  - destruct (pending c !! t) as [ev|] eqn:E; [|discriminate].
    inversion Hstep; subst; clear Hstep. cbn. split; [|split]; cbn.
    + unfold pushEvent. now destruct (m_active (rec c)).
    + rewrite pushEvent_events. destruct (m_active (rec c)); [|exact He].
      apply Forall_app; split; [exact He|].
      constructor; [exact (Hp t ev E)|constructor].
    + intros k x Hk. apply lookup_delete_Some in Hk as [_ Hk]. exact (Hp k x Hk).
Qed.

(** C9 (as amended): when the stored path cannot be opened, [endSession]
    still ends the session and tries the path once, no file changes, and the
    recorder it leaves is the one it leaves when the write succeeds: the
    operation returns nothing and the caller is told nothing.  An add call
    always runs to its end. *)
Theorem C9_write_failure_is_silent
    (r : ChromeTracer) (fs : FileSystem)
    (Hactive : m_active r = true)
    (Hdenied : m_filepath r ∈ fs_denied fs) :
  fs_files (snd (endSession r fs)) = fs_files fs
  /\ fs_opens (snd (endSession r fs)) = fs_opens fs ++ [m_filepath r]
  /\ m_active (fst (endSession r fs)) = false
  /\ (forall fs', fst (endSession r fs') = fst (endSession r fs))
  /\ (forall c t call, pending c !! t = None ->
        exists c1 c2, step (APrepare t call) c = Some c1
                      /\ step (ACommit t) c1 = Some c2).
Proof.
  rewrite endSession_active by exact Hactive. cbn.
  destruct (decide (m_filepath r ∈ fs_denied fs)); [|contradiction].
  repeat split.
  - intros fs'. now rewrite endSession_active by exact Hactive.
  - intros c t call Hnone. cbn [step]. rewrite Hnone.
    eexists. eexists. split; [reflexivity|]. cbn [pending].
    rewrite lookup_insert_eq. reflexivity.
Qed.

End Properties.

(** *** The recogniser on the text of a trace *)

Section Wellformed.
Import Json.
Context `{Platform}.

Lemma feed_none (s : string) : feed None s = None.
Proof. now destruct s. Qed.

Lemma feed_app (a b : string) :
  forall m, feed m (a +:+ b) = feed (feed m a) b.
Proof.
  induction a as [|x a IH]; intros m; [reflexivity|].
  rewrite str_app_cons. destruct m as [m|]; cbn [feed]; [apply IH|].
  now rewrite feed_none.
Qed.

Lemma unescaped_stays (c : ascii) (p : pstate) :
  unescaped c = true -> machine_step (LStr, p) c = Some (LStr, p).
Proof.
  intros Hc. unfold machine_step, lex_step. cbn [fst snd].
  unfold unescaped in Hc.
  apply andb_prop in Hc as [Hc H32]. apply andb_prop in Hc as [Hq Hb].
  apply negb_true_iff in Hq, Hb. rewrite Hq, Hb.
  unfold unescaped. rewrite Hq, Hb, H32. reflexivity.
Qed.

Lemma plain_cons (c : ascii) (s : string) :
  plain (String c s) = true <-> unescaped c = true /\ plain s = true.
Proof. unfold plain. cbn. apply andb_true_iff. Qed.

Lemma feed_plain (s : string) (p : pstate) :
  plain s = true -> feed (Some (LStr, p)) s = Some (LStr, p).
Proof.
  induction s as [|c s IH]; intros Hs; [reflexivity|].
  apply plain_cons in Hs as [Hc Hs]. cbn [feed].
  rewrite unescaped_stays by exact Hc. now apply IH.
Qed.

(** A quoted run of plain characters is one string token. *)
Lemma feed_quoted (s rest : string) (p : pstate) :
  plain s = true ->
  feed (Some (LStr, p)) (s +:+ String "034" rest)
  = match parse_step p TString with
    | Some p' => feed (Some (LIdle, p')) rest
    | None => None
    end.
Proof.
  intros Hs. rewrite feed_app, feed_plain by exact Hs. cbn [feed].
  unfold machine_step. cbn [fst snd lex_step Ascii.eqb Bool.eqb parse_tokens].
  destruct (parse_step p TString); [reflexivity|apply feed_none].
Qed.

Lemma num_run_feed (s : string) :
  forall st st' p, num_run st s = Some st' ->
    feed (Some (LNum st, p)) s = Some (LNum st', p).
Proof.
  induction s as [|c s IH]; intros st st' p Hrun; cbn in Hrun.
  - now inversion Hrun.
  - destruct (num_step st c) as [st1|] eqn:E; [|discriminate].
    cbn [feed]. unfold machine_step. cbn [fst snd lex_step]. rewrite E.
    cbn [parse_tokens]. now apply IH.
Qed.

(** The text of a number takes the scanner into an accepting number state
    and emits nothing yet. *)
Lemma feed_number (s : string) :
  is_number s = true ->
  exists st, num_accepting st = true
    /\ forall p, feed (Some (LIdle, p)) s = Some (LNum st, p).
Proof.
  destruct s as [|c s]; [discriminate|]. cbn [is_number].
  destruct (num_start c) as [st0|] eqn:E0; [|discriminate].
  destruct (num_run st0 s) as [st|] eqn:E1; [|discriminate].
  intros Hacc. exists st. split; [exact Hacc|]. intros p.
  cbn [feed]. unfold machine_step. cbn [fst snd lex_step]. unfold lex_idle. rewrite E0.
  cbn [parse_tokens]. now apply num_run_feed.
Qed.

(** A comma or a closing brace ends the number. *)
Lemma number_then_comma (s rest : string) (stk : list frame) :
  is_number s = true ->
  feed (Some (LIdle, (EValue, FObj :: stk))) (s +:+ String "," rest)
  = feed (Some (LIdle, (EKey, FObj :: stk))) rest.
Proof.
  intros Hs. destruct (feed_number s Hs) as (st & Hacc & Hfeed).
  rewrite feed_app, Hfeed. cbn [feed]. f_equal.
  destruct st; try discriminate; reflexivity.
Qed.

Lemma number_then_rbrace (s rest : string) (stk : list frame) :
  is_number s = true ->
  feed (Some (LIdle, (EValue, FObj :: stk))) (s +:+ String "}" rest)
  = feed (Some (LIdle, (EAfter, stk))) rest.
Proof.
  intros Hs. destruct (feed_number s Hs) as (st & Hacc & Hfeed).
  rewrite feed_app, Hfeed. cbn [feed]. f_equal.
  destruct st; try discriminate; reflexivity.
Qed.


(** One concrete character: run the machine on it. *)
Ltac feed_step :=
  match goal with
  | |- context [feed (Some ?m) (String ?c ?s)] =>
      let v := eval cbv in (machine_step m c) in
      change (feed (Some m) (String c s)) with (feed v s)
  end.

Ltac feed_go :=
  repeat first
    [ feed_step
    | rewrite feed_quoted by assumption;
      cbv beta iota delta [parse_step open_value close]
    | rewrite number_then_comma by assumption
    | rewrite number_then_rbrace by assumption ].

Lemma feed_event (ev : TraceEvent) (rest : string) (e : expect) (stk : list frame) :
  e = EValue \/ e = EValueOrClose ->
  plain_names ev -> renders_numbers ev -> phase_ok ev ->
  feed (Some (LIdle, (e, stk))) (spec_event ev +:+ rest)
  = feed (Some (LIdle, (EAfter, stk))) rest.
Proof.
  intros He [Hn Hc] (Hts & Hdur & Htid) Hph.
  rewrite spec_event_text.
  destruct Hph as [E|[E|[E|E]]]; rewrite E;
    unfold lit_name, lit_cat, lit_ph, lit_ts, lit_pid, lit_tid, lit_dur, dquote,
      char_B, char_E, char_X, char_I;
    cbn [Ascii.eqb Bool.eqb]; str_norm;
    destruct He as [-> | ->]; feed_go; reflexivity.
Qed.

Lemma feed_events (evs : list TraceEvent) :
  forall (rest : string) (e : expect) (stk : list frame),
    evs <> [] ->
    e = EValue \/ e = EValueOrClose ->
    Forall plain_names evs -> Forall renders_numbers evs -> Forall phase_ok evs ->
    feed (Some (LIdle, (e, FArr :: stk)))
         (String.concat "," (map spec_event evs) +:+ rest)
    = feed (Some (LIdle, (EAfter, FArr :: stk))) rest.
Proof.
  induction evs as [|ev evs IH]; intros rest e stk Hne He Hp Hr Hph; [done|].
  apply Forall_cons in Hp as [Hp1 Hp], Hr as [Hr1 Hr], Hph as [Hph1 Hph].
  destruct evs as [|ev' evs'].
  - cbn [map String.concat]. now apply feed_event.
  - change (String.concat "," (map spec_event (ev :: ev' :: evs')))
      with (spec_event ev +:+ "," +:+ String.concat "," (map spec_event (ev' :: evs'))).
    str_norm. rewrite feed_event by assumption.
    feed_step. apply IH; auto.
Qed.

Lemma trace_is_json (evs : list TraceEvent) :
  Forall plain_names evs -> Forall renders_numbers evs -> Forall phase_ok evs ->
  valid_object (spec_trace evs) = true.
Proof.
  intros Hp Hr Hph. unfold valid_object. apply andb_true_iff. split; [|reflexivity].
  unfold valid, spec_trace, json_object, json_array, json_member, json_string, dquote.
  cbn [map fst snd String.concat]. str_norm.
  destruct evs as [|ev evs'].
  - reflexivity.
  - feed_go. rewrite feed_events by (auto; discriminate). reflexivity.
Qed.

(** *** Texts with an odd number of quotes *)

Lemma quote_parity_app (a b : string) :
  quote_parity (a +:+ b) = xorb (quote_parity a) (quote_parity b).
Proof.
  induction a as [|c a IH]; [reflexivity|].
  rewrite str_app_cons. cbn [quote_parity]. rewrite IH. now rewrite xorb_assoc.
Qed.

Lemma no_backslash_app (a b : string) :
  no_backslash (a +:+ b) = no_backslash a && no_backslash b.
Proof.
  unfold no_backslash. induction a as [|c a IH]; [reflexivity|].
  rewrite str_app_cons. cbn [list_ascii_of_string forallb]. rewrite IH.
  now rewrite andb_assoc.
Qed.

Lemma no_backslash_cons (c : ascii) (s : string) :
  no_backslash (String c s) = negb (Ascii.eqb c "\") && no_backslash s.
Proof. reflexivity. Qed.

Lemma num_step_plain (st st' : num_state) (c : ascii) :
  num_step st c = Some st' -> Ascii.eqb c "034" = false /\ Ascii.eqb c "\" = false.
Proof.
  intros Hs. split.
  - destruct (Ascii.eqb_spec c "034") as [->|]; [|reflexivity]. now destruct st.
  - destruct (Ascii.eqb_spec c "\") as [->|]; [|reflexivity]. now destruct st.
Qed.

Lemma num_start_plain (st : num_state) (c : ascii) :
  num_start c = Some st -> Ascii.eqb c "034" = false /\ Ascii.eqb c "\" = false.
Proof.
  intros Hs. split.
  - destruct (Ascii.eqb_spec c "034") as [->|]; [discriminate|reflexivity].
  - destruct (Ascii.eqb_spec c "\") as [->|]; [discriminate|reflexivity].
Qed.

Lemma num_run_plain (s : string) :
  forall st st', num_run st s = Some st' ->
    quote_parity s = false /\ no_backslash s = true.
Proof.
  induction s as [|c s IH]; intros st st' Hrun; [now split|]. cbn in Hrun.
  destruct (num_step st c) as [st1|] eqn:E; [|discriminate].
  destruct (num_step_plain _ _ _ E) as [Hq Hb].
  destruct (IH _ _ Hrun) as [IHq IHb].
  rewrite no_backslash_cons. cbn [quote_parity]. rewrite Hq, Hb, IHq, IHb. now split.
Qed.

Lemma number_plain (s : string) :
  is_number s = true -> quote_parity s = false /\ no_backslash s = true.
Proof.
  destruct s as [|c s]; [discriminate|]. cbn [is_number].
  destruct (num_start c) as [st0|] eqn:E0; [|discriminate].
  destruct (num_run st0 s) as [st|] eqn:E1; [|discriminate]. intros _.
  destruct (num_start_plain _ _ E0) as [Hq Hb].
  destruct (num_run_plain _ _ _ E1) as [IHq IHb].
  rewrite no_backslash_cons. cbn [quote_parity]. rewrite Hq, Hb, IHq, IHb. now split.
Qed.

Lemma lex_idle_quiet (c : ascii) (l : lex_state) (toks : list token) :
  lex_idle c = Some (l, toks) ->
  quiet l /\ in_string l = Ascii.eqb c "034".
Proof.
  unfold lex_idle. destruct (num_start c) as [st|] eqn:E0.
  - intros Hs. inversion Hs; subst. destruct (num_start_plain _ _ E0) as [-> _].
    now split.
  - destruct (Ascii.eqb_spec c "034") as [->|Hq]; [cbn; intros Hs; now inversion Hs|].
    repeat match goal with
           | |- context [if ?b then _ else _] => destruct b
           end;
      intros Hs; inversion Hs; subst; now cbn.
Qed.

Lemma lex_step_quiet (l l' : lex_state) (c : ascii) (toks : list token) :
  quiet l -> Ascii.eqb c "\" = false ->
  lex_step l c = Some (l', toks) ->
  quiet l' /\ in_string l' = xorb (in_string l) (Ascii.eqb c "034").
Proof.
  intros Hl Hb Hs. destruct l as [| | |n|ns|w]; cbn [lex_step] in Hs.
  - now apply lex_idle_quiet in Hs.
  - rewrite Hb in Hs. destruct (Ascii.eqb c "034").
    + inversion Hs; subst. now split.
    + destruct (unescaped c); inversion Hs; subst. now split.
  - destruct Hl.
  - destruct Hl.
  - destruct (num_step ns c) as [ns'|] eqn:E.
    + inversion Hs; subst. destruct (num_step_plain _ _ _ E) as [-> _]. now split.
    + destruct (num_accepting ns); [|discriminate].
      destruct (lex_idle c) as [[l1 toks1]|] eqn:E1; [|discriminate].
      inversion Hs; subst. now apply lex_idle_quiet in E1.
  - destruct w as [|c' w']; [discriminate|].
    destruct (Ascii.eqb_spec c c') as [->|]; [|discriminate].
    cbn in Hl. apply andb_prop in Hl as [Hq Hw]. apply negb_true_iff in Hq.
    rewrite Hq. destruct w'; inversion Hs; subst; now split.
Qed.

Lemma feed_quiet (s : string) :
  forall l p l' p',
    quiet l -> no_backslash s = true ->
    feed (Some (l, p)) s = Some (l', p') ->
    quiet l' /\ in_string l' = xorb (in_string l) (quote_parity s).
Proof.
  induction s as [|c s IH]; intros l p l' p' Hl Hn Hfeed.
  - cbn in Hfeed. inversion Hfeed; subst. split; [exact Hl|].
    now destruct (in_string l').
  - rewrite no_backslash_cons in Hn. apply andb_prop in Hn as [Hb Hn].
    apply negb_true_iff in Hb. cbn [feed] in Hfeed.
    unfold machine_step in Hfeed. cbn [fst snd] in Hfeed.
    destruct (lex_step l c) as [[l1 toks]|] eqn:E;
      [|now rewrite feed_none in Hfeed].
    destruct (parse_tokens p toks) as [p1|]; [|now rewrite feed_none in Hfeed].
    destruct (lex_step_quiet l l1 c toks Hl Hb E) as [Hl1 Hin1].
    destruct (IH l1 p1 l' p' Hl1 Hn Hfeed) as [Hl' Hin'].
    split; [exact Hl'|]. rewrite Hin', Hin1. cbn [quote_parity].
    now rewrite xorb_assoc.
Qed.

(** A text without backslash and with an odd number of double quotes is
    not JSON: the last quote opens a string that never ends. *)
Lemma odd_quotes_invalid (s : string) :
  no_backslash s = true -> quote_parity s = true -> valid s = false.
Proof.
  intros Hn Hq. unfold valid.
  destruct (feed (Some start) s) as [[l p]|] eqn:E; [|reflexivity].
  destruct (feed_quiet s LIdle (EValue, []) l p I Hn E) as [_ Hin].
  rewrite Hq in Hin. cbn in Hin. destruct l; try discriminate. reflexivity.
Qed.

Lemma event_quotes (ev : TraceEvent) :
  phase_ok ev -> renders_numbers ev ->
  quote_parity (spec_event ev)
  = xorb (quote_parity (name ev)) (quote_parity (category ev)).
Proof.
  intros Hph (Hts & Hdur & Htid).
  apply number_plain in Hts as [Hts _], Hdur as [Hdur _], Htid as [Htid _].
  rewrite spec_event_text.
  destruct Hph as [E|[E|[E|E]]]; rewrite E; cbn [Ascii.eqb Bool.eqb char_X];
    rewrite !quote_parity_app, ?Hts, ?Hdur, ?Htid;
    destruct (quote_parity (name ev)), (quote_parity (category ev)); reflexivity.
Qed.

Lemma event_no_backslash (ev : TraceEvent) :
  phase_ok ev -> renders_numbers ev -> no_backslash_names ev ->
  no_backslash (spec_event ev) = true.
Proof.
  intros Hph (Hts & Hdur & Htid) [Hn Hc].
  apply number_plain in Hts as [_ Hts], Hdur as [_ Hdur], Htid as [_ Htid].
  rewrite spec_event_text.
  destruct Hph as [E|[E|[E|E]]]; rewrite E; cbn [Ascii.eqb Bool.eqb char_X];
    rewrite !no_backslash_app, ?Hts, ?Hdur, ?Htid, Hn, Hc; reflexivity.
Qed.

Lemma events_quotes (evs : list TraceEvent) :
  Forall phase_ok evs -> Forall renders_numbers evs ->
  quote_parity (String.concat "," (map spec_event evs)) = stray_quote evs.
Proof.
  induction evs as [|ev evs IH]; intros Hph Hr; [reflexivity|].
  apply Forall_cons in Hph as [Hph1 Hph], Hr as [Hr1 Hr].
  specialize (IH Hph Hr). cbn [stray_quote]. rewrite <- IH.
  destruct evs as [|ev' evs'].
  - cbn [map String.concat quote_parity]. rewrite event_quotes by assumption.
    now rewrite xorb_false_r.
  - change (String.concat "," (map spec_event (ev :: ev' :: evs')))
      with (spec_event ev +:+ "," +:+ String.concat "," (map spec_event (ev' :: evs'))).
    rewrite !quote_parity_app, event_quotes by assumption. reflexivity.
Qed.

Lemma events_no_backslash (evs : list TraceEvent) :
  Forall phase_ok evs -> Forall renders_numbers evs -> Forall no_backslash_names evs ->
  no_backslash (String.concat "," (map spec_event evs)) = true.
Proof.
  induction evs as [|ev evs IH]; intros Hph Hr Hn; [reflexivity|].
  apply Forall_cons in Hph as [Hph1 Hph], Hr as [Hr1 Hr], Hn as [Hn1 Hn].
  specialize (IH Hph Hr Hn).
  destruct evs as [|ev' evs'].
  - cbn [map String.concat]. now apply event_no_backslash.
  - change (String.concat "," (map spec_event (ev :: ev' :: evs')))
      with (spec_event ev +:+ "," +:+ String.concat "," (map spec_event (ev' :: evs'))).
    rewrite !no_backslash_app, event_no_backslash, IH by assumption. reflexivity.
Qed.

Lemma trace_not_json (evs : list TraceEvent) :
  Forall phase_ok evs -> Forall renders_numbers evs -> Forall no_backslash_names evs ->
  stray_quote evs = true ->
  valid (spec_trace evs) = false.
Proof.
  intros Hph Hr Hn Hodd. apply odd_quotes_invalid.
  - unfold spec_trace, json_object, json_array, json_member, json_string, dquote.
    cbn [map fst snd String.concat].
    rewrite !no_backslash_app, events_no_backslash by assumption. reflexivity.
  - unfold spec_trace, json_object, json_array, json_member, json_string, dquote.
    cbn [map fst snd String.concat].
    rewrite !quote_parity_app, events_quotes, Hodd by assumption. reflexivity.
Qed.

(** C10 (as amended): [writeToFile] puts the characters of name and
    category between two quotes as they are.  When the phases are the four
    known ones and the platform prints the numbers as JSON numbers: if no
    name or category holds a double quote, a backslash or a control
    character, the text written is a well-formed JSON object; if none holds
    a backslash and together they hold an odd number of double quotes, the
    text written is not well-formed JSON. *)
Theorem C10_unescaped_names_and_wellformedness
    (r : ChromeTracer)
    (Hph : Forall phase_ok (m_events r))
    (Hnum : Forall renders_numbers (m_events r)) :
  trace_text r = spec_trace (m_events r)
  /\ (forall ev, In ("name", dquote +:+ name ev +:+ dquote) (spec_members ev)
              /\ In ("cat", dquote +:+ category ev +:+ dquote) (spec_members ev))
  /\ (Forall plain_names (m_events r) -> valid_object (trace_text r) = true)
  /\ (Forall no_backslash_names (m_events r) -> stray_quote (m_events r) = true ->
      valid (trace_text r) = false).
Proof.
  split; [apply trace_text_spec|split; [|split]].
  - intros ev. unfold spec_members, json_string. cbn. tauto.
  - intros Hplain. rewrite trace_text_spec. now apply trace_is_json.
  - intros Hn Hodd. rewrite trace_text_spec. now apply trace_not_json.
Qed.

End Wellformed.

(** ** Instances on the sample platform *)

(** The recogniser on a few texts. *)
Example json_accepts :
  forallb Json.valid
    ["{}"; "[]"; " [1, 2.5e-3 ,true,null] "; "-0.5E+10"; "[[[]]]";
     "{" +:+ json_string "k" +:+ ":{" +:+ json_string "a\u00e9\n" +:+ ":[false]}}"]
  = true.
Proof. vm_compute. reflexivity. Qed.

Example json_rejects :
  existsb Json.valid
    [""; "[1,]"; "{,}"; "01"; "1."; ".5"; "1e"; "-"; "tru"; "nulll"; "[1 2]";
     "1 2"; "[}"; "{" +:+ json_string "k" +:+ "}"; "{1:2}"; dquote;
     json_string "\x"; json_string (String "009" EmptyString); "[1]]"]
  = false.
Proof. vm_compute. reflexivity. Qed.

(** The scenario of section 8: one instant event A of category cat. *)
Example scenario_instant_event :
  fs_files (snd (endSession (recorder_with_name "A") fs_empty)) !! "t.json"
  = Some ("{" +:+ json_string "traceEvents" +:+ ":[{"
          +:+ json_string "name" +:+ ":" +:+ json_string "A" +:+ ","
          +:+ json_string "cat" +:+ ":" +:+ json_string "cat" +:+ ","
          +:+ json_string "ph" +:+ ":" +:+ json_string "I" +:+ ","
          +:+ json_string "ts" +:+ ":0,"
          +:+ json_string "pid" +:+ ":0,"
          +:+ json_string "tid" +:+ ":7}]}").
Proof. vm_compute. reflexivity. Qed.

(** A span of ten milliseconds: the record carries a dur key. *)
Example scenario_span :
  trace_text (addDurationEvent "Work" "function" 1500 10001500 7%N
                (beginSession "t.json" 1000 ChromeTracer_default))
  = "{" +:+ json_string "traceEvents" +:+ ":[{"
    +:+ json_string "name" +:+ ":" +:+ json_string "Work" +:+ ","
    +:+ json_string "cat" +:+ ":" +:+ json_string "function" +:+ ","
    +:+ json_string "ph" +:+ ":" +:+ json_string "X" +:+ ","
    +:+ json_string "ts" +:+ ":0.5,"
    +:+ json_string "pid" +:+ ":0,"
    +:+ json_string "tid" +:+ ":7,"
    +:+ json_string "dur" +:+ ":10000}]}".
Proof. vm_compute. reflexivity. Qed.

Lemma C1_witness :
  fs_files (snd (endSession demo_recorder fs_empty)) !! "t.json"
  = Some (spec_trace (m_events demo_recorder))
  /\ Json.valid_object (spec_trace (m_events demo_recorder)) = true.
Proof.
  split.
  - apply (C1_endSession_writes_trace_format demo_recorder fs_empty).
    + reflexivity.
    + apply not_elem_of_empty.
  - vm_compute. reflexivity.
Defined.

Lemma C2_witness :
  addInstantEvent "A" "cat" 1000 7%N ChromeTracer_default = ChromeTracer_default
  /\ addDurationEvent "Work" "function" 1500 2500 7%N ChromeTracer_default
     = ChromeTracer_default.
Proof.
  pose proof (C2_inactive_add_is_dropped ChromeTracer_default eq_refl) as (Hd & Hp & _).
  split; [apply Hp|apply Hd].
Defined.

Lemma C3_witness :
  m_events (beginSession "u.json" 5000 demo_recorder) = []
  /\ snd (endSession (beginSession "u.json" 5000 demo_recorder) fs_empty)
     = ofstream_write "u.json" (spec_trace []) fs_empty.
Proof.
  pose proof (C3_beginSession_starts_fresh demo_recorder "u.json" 5000)
    as (Hev & _ & _ & _ & _ & _ & Hflush).
  split; [exact Hev|apply Hflush].
Defined.

Lemma C4_witness :
  fs_opens (snd (endSession demo_recorder fs_empty)) = ["t.json"]
  /\ endSession (fst (endSession demo_recorder fs_empty))
                (snd (endSession demo_recorder fs_empty))
     = endSession demo_recorder fs_empty.
Proof.
  pose proof (C4_endSession_only_when_active demo_recorder fs_empty)
    as (_ & Htwice & Hon).
  split; [apply (Hon eq_refl)|exact Htwice].
Defined.

Lemma C5_witness :
  pending (after [APrepare 8%N (CallInstant "A" "cat" 1200); ACommit 8%N;
                  ABeginSession "u.json" 5000]
             (after [APrepare 7%N (CallDuration "Work" "function" 1500 2500)] demo_start))
    !! 7%N
  = Some (mkTraceEvent "Work" "function" char_X (us 500) (us 1000) 7%N).
Proof.
  apply (C5_duration_event_is_built_before_the_lock
           demo_start
           (after [APrepare 7%N (CallDuration "Work" "function" 1500 2500)] demo_start)
           _ 7%N "Work" "function" 1500 2500
           [APrepare 8%N (CallInstant "A" "cat" 1200); ACommit 8%N;
            ABeginSession "u.json" 5000]);
    reflexivity.
Defined.

Lemma C6_witness :
  length (m_events (rec (after (ABeginSession "t.json" 1000 :: demo_actions ++ [AEndSession])
                           (init_config fs_empty)))) = 3%nat
  /\ map name (m_events (rec (after (ABeginSession "t.json" 1000 :: demo_actions ++ [AEndSession])
                                (init_config fs_empty)))) = ["A"; "X"; "Y"].
Proof.
  split.
  - apply (C6_session_keeps_every_record (init_config fs_empty) _ "t.json" 1000 demo_actions);
      reflexivity.
  - reflexivity.
Defined.

Lemma C7_witness :
  exists ev,
    m_events (fst (scoped "Work" "function" 7%N 1500 10001500
                     (fun r => (addInstantEvent "A" "cat" 1600 7%N r, ExitThrow))
                     (beginSession "t.json" 1000 ChromeTracer_default)))
    = m_events (addInstantEvent "A" "cat" 1600 7%N
                  (beginSession "t.json" 1000 ChromeTracer_default)) ++ [ev]
    /\ phase ev = char_X
    /\ (10000 <= durationUs ev)%Q.
Proof.
  destruct (C7_scope_trace_records_its_block "Work" "function" 7%N 1500 10001500
              (fun r => (addInstantEvent "A" "cat" 1600 7%N r, ExitThrow))
              (beginSession "t.json" 1000 ChromeTracer_default)
              _ ExitThrow 10000%Q eq_refl eq_refl)
    as (_ & _ & _ & ev & Hev & _ & _ & Hph & _ & _ & Hd).
  - unfold us, Qle. cbn. lia.
  - exists ev. auto.
Defined.

(** C8, the claim as stated fails: a [ScopeTrace] built before
    [beginSession] and destroyed during the session appends a record whose
    timestamp is negative. *)
Lemma C8_counterexample :
  exists ev,
    m_events (ScopeTrace_dtor (ScopeTrace_ctor "Main" "function" 500) 2000 7%N
                (beginSession "trace.json" 1000 ChromeTracer_default)) = [ev]
    /\ (timestampUs ev < 0)%Q.
Proof.
  eexists. split; [reflexivity|]. unfold Qlt. cbn. lia.
Qed.

(** C9, the claim as stated fails: the open fails, nothing is written, and
    what [endSession] hands back is what it hands back on success. *)
Lemma C9_counterexample :
  fs_files (snd (endSession (beginSession "out/t.json" 1000 ChromeTracer_default) fs_no_dir))
    !! "out/t.json" = None
  /\ fs_files (snd (endSession (beginSession "out/t.json" 1000 ChromeTracer_default) fs_empty))
       !! "out/t.json" = Some (spec_trace [])
  /\ fst (endSession (beginSession "out/t.json" 1000 ChromeTracer_default) fs_no_dir)
     = fst (endSession (beginSession "out/t.json" 1000 ChromeTracer_default) fs_empty).
Proof. split; [|split]; vm_compute; reflexivity. Qed.

Lemma C9_witness :
  fs_files (snd (endSession (beginSession "out/t.json" 1000 ChromeTracer_default) fs_no_dir))
  = ∅
  /\ m_active (fst (endSession (beginSession "out/t.json" 1000 ChromeTracer_default) fs_no_dir))
     = false.
Proof.
  pose proof (C9_write_failure_is_silent
                (beginSession "out/t.json" 1000 ChromeTracer_default) fs_no_dir eq_refl)
    as Hsil.
  destruct Hsil as (Hfiles & _ & Hoff & _).
  - cbn. apply elem_of_singleton_2. reflexivity.
  - split; [exact Hfiles|exact Hoff].
Defined.

(** C10, the claim as stated fails both ways: a name made of a backslash
    and a double quote gives well-formed JSON (the pair reads as an escaped
    quote), and a name made of a line feed, with neither quote nor
    backslash, gives a text that is not JSON. *)
Lemma C10_counterexample :
  (has_quote_or_backslash name_escaped_quote = true
   /\ Json.valid (trace_text (recorder_with_name name_escaped_quote)) = true)
  /\ (has_quote_or_backslash name_line_feed = false
      /\ Json.valid (trace_text (recorder_with_name name_line_feed)) = false).
Proof. repeat split; vm_compute; reflexivity. Qed.

Lemma C10_witness :
  Json.valid_object (trace_text demo_recorder) = true
  /\ Json.valid (trace_text (recorder_with_name name_quote)) = false.
Proof.
  split.
  - apply (C10_unescaped_names_and_wellformedness demo_recorder).
    + repeat (first [apply Forall_nil_2 | apply Forall_cons_2]); cbv; auto 6.
    + repeat (first [apply Forall_nil_2 | apply Forall_cons_2]);
        repeat split; vm_compute; reflexivity.
    + repeat (first [apply Forall_nil_2 | apply Forall_cons_2]);
        repeat split; vm_compute; reflexivity.
  - apply (C10_unescaped_names_and_wellformedness (recorder_with_name name_quote)).
    + repeat (first [apply Forall_nil_2 | apply Forall_cons_2]); cbv; auto 6.
    + repeat (first [apply Forall_nil_2 | apply Forall_cons_2]);
        repeat split; vm_compute; reflexivity.
    + repeat (first [apply Forall_nil_2 | apply Forall_cons_2]);
        repeat split; vm_compute; reflexivity.
    + reflexivity.
Defined.

(** ** Further properties of the recorder *)

Section Lifecycle.
Context `{Platform}.

Lemma ofstream_write_opens (path text : string) (fs : FileSystem) :
  fs_opens (ofstream_write path text fs) = fs_opens fs ++ [path].
Proof. reflexivity. Qed.

Lemma ofstream_write_other (path text q : string) (fs : FileSystem) :
  q <> path ->
  fs_files (ofstream_write path text fs) !! q = fs_files fs !! q.
Proof.
  intros Hne. unfold ofstream_write. cbn.
  destruct (decide (path ∈ fs_denied fs)); [reflexivity|].
  apply lookup_insert_ne. congruence.
Qed.

(** What a step does to the flag, the path and the file system. *)
Lemma step_files (a : Action) (c c' : Config) :
  step a c = Some c' ->
  match a with
  | ABeginSession p _ =>
      fsys c' = fsys c /\ m_active (rec c') = true /\ m_filepath (rec c') = p
  | AEndSession =>
      m_active (rec c') = false /\ m_filepath (rec c') = m_filepath (rec c)
      /\ fsys c' = (if m_active (rec c)
                    then ofstream_write (m_filepath (rec c))
                           (spec_trace (m_events (rec c))) (fsys c)
                    else fsys c)
  | _ =>
      fsys c' = fsys c /\ m_active (rec c') = m_active (rec c)
      /\ m_filepath (rec c') = m_filepath (rec c)
  end.
Proof.
  intros Hstep. destruct a as [p now| |t call|t]; cbn in Hstep.
  - inversion Hstep; subst. now cbn.
  - destruct (m_active (rec c)) eqn:E.
    + rewrite endSession_active in Hstep by exact E. inversion Hstep; subst. now cbn.
    + rewrite endSession_inactive in Hstep by exact E. inversion Hstep; subst. now cbn.
  - destruct (pending c !! t); [discriminate|]. inversion Hstep; subst. now cbn.
  - destruct (pending c !! t); [|discriminate]. inversion Hstep; subst. cbn.
    unfold pushEvent. now destruct (m_active (rec c)) eqn:E; cbn; rewrite ?E.
Qed.

(** X1: the files the recorder opens are decided by the session calls
    alone: along any run, each [endSession] that finds a session active
    opens the path of that session once, and nothing else opens a file. *)
Theorem opens_follow_the_session_calls (acts : list Action) :
  forall c c',
    run acts c = Some c' ->
    fs_opens (fsys c')
    = fs_opens (fsys c) ++ lifecycle_opens (m_active (rec c)) (m_filepath (rec c)) acts.
Proof.
  induction acts as [|a acts IH]; intros c c' Hrun; cbn in Hrun.
  - inversion Hrun; subst. cbn. now rewrite app_nil_r.
  - destruct (step a c) as [c1|] eqn:Hstep; [|discriminate].
    rewrite (IH c1 c' Hrun). pose proof (step_files a c c1 Hstep) as Hf.
    destruct a as [p now| |t call|t]; cbn [lifecycle_opens].
    + destruct Hf as (-> & -> & ->). reflexivity.
    + destruct Hf as (-> & -> & ->). destruct (m_active (rec c)).
      * rewrite ofstream_write_opens, <- app_assoc. reflexivity.
      * reflexivity.
    + destruct Hf as (-> & -> & ->). reflexivity.
    + destruct Hf as (-> & -> & ->). reflexivity.
Qed.

(** X2: a run never changes which paths can be opened, and it leaves alone
    every file whose path is neither the path stored at the start nor a path
    given to [beginSession] during the run. *)
Theorem other_files_are_left_alone (acts : list Action) :
  forall c c' q,
    run acts c = Some c' ->
    q <> m_filepath (rec c) ->
    ~ In q (begin_paths acts) ->
    fs_denied (fsys c') = fs_denied (fsys c)
    /\ fs_files (fsys c') !! q = fs_files (fsys c) !! q.
Proof.
  induction acts as [|a acts IH]; intros c c' q Hrun Hq Hnot; cbn in Hrun.
  - now inversion Hrun; subst.
  - destruct (step a c) as [c1|] eqn:Hstep; [|discriminate].
    pose proof (step_files a c c1 Hstep) as Hf.
    destruct a as [p now| |t call|t]; cbn [begin_paths] in Hnot.
    + destruct Hf as (Hfs & _ & Hp).
      destruct (IH c1 c' q Hrun) as [Hd Hl];
        [rewrite Hp; intros ->; apply Hnot; now left
        |intros Hin; apply Hnot; now right|].
      now rewrite Hd, Hl, Hfs.
    + destruct Hf as (_ & Hp & Hfs).
      destruct (IH c1 c' q Hrun) as [Hd Hl]; [now rewrite Hp|exact Hnot|].
      rewrite Hd, Hl, Hfs. destruct (m_active (rec c)); [|now split].
      split; [reflexivity|]. now apply ofstream_write_other.
    + destruct Hf as (Hfs & _ & Hp).
      destruct (IH c1 c' q Hrun) as [Hd Hl]; [now rewrite Hp|exact Hnot|].
      now rewrite Hd, Hl, Hfs.
    + destruct Hf as (Hfs & _ & Hp).
      destruct (IH c1 c' q Hrun) as [Hd Hl]; [now rewrite Hp|exact Hnot|].
      now rewrite Hd, Hl, Hfs.
Qed.

End Lifecycle.

Section Records.
Context `{Platform}.

Lemma prepare_threadId (call : AddCall) (t : thread_id) (r : ChromeTracer) :
  threadId (prepare call t r) = t.
Proof. now destruct call. Qed.

Lemma step_attributed (a : Action) (c c' : Config) :
  attributed c -> step a c = Some c' -> attributed c'.
Proof.
  intros Hatt Hstep. destruct a as [p now| |t call|t]; cbn in Hstep.
  - now inversion Hstep; subst.
  - destruct (endSession (rec c) (fsys c)). now inversion Hstep; subst.
  - destruct (pending c !! t); [discriminate|]. inversion Hstep; subst.
    unfold attributed. cbn.
    apply map_Forall_insert_2; [apply prepare_threadId|exact Hatt].
  - destruct (pending c !! t); [|discriminate]. inversion Hstep; subst.
    unfold attributed. cbn. intros k x Hk. apply lookup_delete_Some in Hk as [_ Hk]. exact (Hatt k x Hk).
Qed.

Lemma run_attributed (acts : list Action) :
  forall c c', attributed c -> run acts c = Some c' -> attributed c'.
Proof.
  induction acts as [|a acts IH]; intros c c' Hatt Hrun; cbn in Hrun.
  - now inversion Hrun; subst.
  - destruct (step a c) as [c1|] eqn:Hstep; [|discriminate].
    eapply IH; [|exact Hrun]. eapply step_attributed; eauto.
Qed.

(** X3: whatever the interleaving, the record a thread appends when it gets
    the lock carries that thread's own identity: a record is never
    attributed to the thread that happens to hold the lock next to it. *)
Theorem records_carry_the_callers_thread
    (fs : FileSystem) (acts : list Action) (c c' : Config) (t : thread_id)
    (Hrun : run acts (init_config fs) = Some c)
    (Hactive : m_active (rec c) = true)
    (Hstep : step (ACommit t) c = Some c') :
  exists ev, m_events (rec c') = m_events (rec c) ++ [ev] /\ threadId ev = t.
Proof.
  assert (Hatt : attributed c).
  { apply (run_attributed acts (init_config fs)); [apply map_Forall_empty|exact Hrun]. }
  cbn in Hstep. destruct (pending c !! t) as [ev|] eqn:E; [|discriminate].
  inversion Hstep; subst. exists ev. cbn. split.
  - unfold pushEvent. now rewrite Hactive.
  - exact (Hatt t ev E).
Qed.

Lemma prepare_no_duration (call : AddCall) (t : thread_id) (r : ChromeTracer) :
  no_duration (prepare call t r).
Proof. destruct call; intros Hph; cbn in *; [now contradiction Hph|reflexivity..]. Qed.

Lemma step_no_duration (a : Action) (c c' : Config) :
  Forall no_duration (m_events (rec c)) ->
  map_Forall (fun _ ev => no_duration ev) (pending c) ->
  step a c = Some c' ->
  Forall no_duration (m_events (rec c'))
  /\ map_Forall (fun _ ev => no_duration ev) (pending c').
Proof.
  intros Hev Hpend Hstep. destruct a as [p now| |t call|t]; cbn in Hstep.
  - inversion Hstep; subst. split; [constructor|exact Hpend].
  - unfold endSession in Hstep. destruct (m_active (rec c)); cbn in Hstep;
      inversion Hstep; subst; now split.
  - destruct (pending c !! t); [discriminate|]. inversion Hstep; subst.
    split; [exact Hev|]. cbn.
    apply map_Forall_insert_2; [apply prepare_no_duration|exact Hpend].
  - destruct (pending c !! t) as [ev|] eqn:E; [|discriminate].
    inversion Hstep; subst. cbn. split.
    + rewrite pushEvent_events. destruct (m_active (rec c)); [|exact Hev].
      apply Forall_app; split; [exact Hev|].
      constructor; [exact (Hpend t ev E)|constructor].
    + intros k x Hk. apply lookup_delete_Some in Hk as [_ Hk]. exact (Hpend k x Hk).
Qed.

Lemma run_no_duration (acts : list Action) :
  forall c c',
    Forall no_duration (m_events (rec c)) ->
    map_Forall (fun _ ev => no_duration ev) (pending c) ->
    run acts c = Some c' ->
    Forall no_duration (m_events (rec c')).
Proof.
  induction acts as [|a acts IH]; intros c c' Hev Hpend Hrun; cbn in Hrun.
  - now inversion Hrun; subst.
  - destruct (step a c) as [c1|] eqn:Hstep; [|discriminate].
    destruct (step_no_duration a c c1 Hev Hpend Hstep) as [Hev1 Hpend1].
    exact (IH c1 c' Hev1 Hpend1 Hrun).
Qed.

(** X4: every record of phase B, E or I that a run leaves in the buffer has
    duration zero, and the text written for it has no dur key; only
    [addDurationEvent] stores a duration. *)
Theorem stamped_records_have_no_duration
    (fs : FileSystem) (acts : list Action) (c : Config) (ev : TraceEvent)
    (Hrun : run acts (init_config fs) = Some c)
    (Hin : In ev (m_events (rec c)))
    (Hph : phase ev <> char_X) :
  durationUs ev = 0%Q
  /\ ~ In "dur" (map fst (spec_members ev)).
Proof.
  split.
  - assert (Hall : Forall no_duration (m_events (rec c))).
    { apply (run_no_duration acts (init_config fs) c);
        [constructor|apply map_Forall_empty|exact Hrun]. }
    rewrite Forall_forall in Hall. apply Hall; [|exact Hph].
    now apply list_elem_of_In.
  - unfold spec_members.
    destruct (Ascii.eqb_spec (phase ev) char_X) as [E|E]; [contradiction|].
    cbn. intros Hx.
    repeat (destruct Hx as [Hx|Hx]; [discriminate Hx|]). destruct Hx.
Qed.


(** X6: when the process exits, the destructor of the recorder ends the
    session: it leaves the recorder inactive with its buffer as it was; a
    session still active then is flushed to its path (written when the path
    opens); and after an explicit [endSession] the destructor changes
    nothing and opens no file. *)
Theorem destructor_flushes_an_open_session (r : ChromeTracer) (fs : FileSystem) :
  m_active (fst (ChromeTracer_dtor r fs)) = false
  /\ m_events (fst (ChromeTracer_dtor r fs)) = m_events r
  /\ (m_active r = true ->
      fs_opens (snd (ChromeTracer_dtor r fs)) = fs_opens fs ++ [m_filepath r]
      /\ (m_filepath r ∉ fs_denied fs ->
          fs_files (snd (ChromeTracer_dtor r fs)) !! m_filepath r
          = Some (spec_trace (m_events r))))
  /\ ChromeTracer_dtor (fst (endSession r fs)) (snd (endSession r fs))
     = endSession r fs.
Proof.
  unfold ChromeTracer_dtor. split; [apply endSession_leaves_inactive|].
  split; [|split].
  - destruct (m_active r) eqn:E.
    + now rewrite endSession_active.
    + now rewrite endSession_inactive.
  - intros Hon. rewrite endSession_active by exact Hon. cbn.
    split; [reflexivity|]. intros Hopen.
    destruct (decide (m_filepath r ∈ fs_denied fs)); [contradiction|].
    apply lookup_insert_eq.
  - rewrite (endSession_inactive (fst (endSession r fs)))
      by apply endSession_leaves_inactive.
    now destruct (endSession r fs).
Qed.

End Records.

Section Traces.
Context `{Platform}.

Lemma prepare_labels (call : AddCall) (t : thread_id) (r : ChromeTracer) :
  (name (prepare call t r), category (prepare call t r)) = call_labels call.
Proof. now destruct call. Qed.

Lemma prepare_from_calls (ls : list (string * string)) (call : AddCall)
    (t : thread_id) (r : ChromeTracer) :
  In (call_labels call) ls -> from_calls ls (prepare call t r).
Proof.
  intros Hin. split; [apply prepare_phase_ok|]. now rewrite prepare_labels.
Qed.

(** The files of [fs] are those of [fs0] or traces of records made by the
    calls labelled in [ls]. *)
Lemma step_files_are_traces (ls : list (string * string)) (fs0 : FileSystem)
    (a : Action) (c c' : Config) :
  incl (labels_of [a]) ls ->
  Forall (from_calls ls) (m_events (rec c)) ->
  map_Forall (fun _ ev => from_calls ls ev) (pending c) ->
  (forall q text, fs_files (fsys c) !! q = Some text ->
     fs_files fs0 !! q = Some text
     \/ exists evs, text = spec_trace evs /\ Forall (from_calls ls) evs) ->
  step a c = Some c' ->
  Forall (from_calls ls) (m_events (rec c'))
  /\ map_Forall (fun _ ev => from_calls ls ev) (pending c')
  /\ (forall q text, fs_files (fsys c') !! q = Some text ->
        fs_files fs0 !! q = Some text
        \/ exists evs, text = spec_trace evs /\ Forall (from_calls ls) evs).
Proof.
  intros Hls Hev Hpend Hfiles Hstep.
  destruct a as [p now| |t call|t]; cbn in Hstep.
  - inversion Hstep; subst. cbn. split; [constructor|now split].
  - destruct (m_active (rec c)) eqn:E.
    + rewrite endSession_active in Hstep by exact E. inversion Hstep; subst. cbn.
      split; [exact Hev|split; [exact Hpend|]]. intros q text.
      destruct (decide (m_filepath (rec c) ∈ fs_denied (fsys c))); [apply Hfiles|].
      destruct (decide (q = m_filepath (rec c))) as [->|Hne].
      * rewrite lookup_insert_eq. intros Heq. inversion Heq; subst. right. eauto.
      * rewrite lookup_insert_ne by congruence. apply Hfiles.
    + rewrite endSession_inactive in Hstep by exact E. inversion Hstep; subst.
      now split.
  - destruct (pending c !! t); [discriminate|]. inversion Hstep; subst. cbn.
    split; [exact Hev|split; [|exact Hfiles]].
    apply map_Forall_insert_2; [|exact Hpend].
    apply prepare_from_calls. apply Hls. now left.
  - destruct (pending c !! t) as [ev|] eqn:E; [|discriminate].
    inversion Hstep; subst. cbn. split; [|split; [|exact Hfiles]].
    + rewrite pushEvent_events. destruct (m_active (rec c)); [|exact Hev].
      apply Forall_app; split; [exact Hev|].
      constructor; [exact (Hpend t ev E)|constructor].
    + intros k x Hk. apply lookup_delete_Some in Hk as [_ Hk]. exact (Hpend k x Hk).
Qed.

Lemma labels_of_cons (a : Action) (acts : list Action) :
  labels_of (a :: acts) = labels_of [a] ++ labels_of acts.
Proof. destruct a; cbn; reflexivity. Qed.

Lemma run_files_are_traces (ls : list (string * string)) (fs0 : FileSystem)
    (acts : list Action) :
  forall c c',
    incl (labels_of acts) ls ->
    Forall (from_calls ls) (m_events (rec c)) ->
    map_Forall (fun _ ev => from_calls ls ev) (pending c) ->
    (forall q text, fs_files (fsys c) !! q = Some text ->
       fs_files fs0 !! q = Some text
       \/ exists evs, text = spec_trace evs /\ Forall (from_calls ls) evs) ->
    run acts c = Some c' ->
    forall q text, fs_files (fsys c') !! q = Some text ->
      fs_files fs0 !! q = Some text
      \/ exists evs, text = spec_trace evs /\ Forall (from_calls ls) evs.
Proof.
  induction acts as [|a acts IH]; intros c c' Hls Hev Hpend Hfiles Hrun; cbn in Hrun.
  - now inversion Hrun; subst.
  - destruct (step a c) as [c1|] eqn:Hstep; [|discriminate].
    rewrite labels_of_cons in Hls.
    destruct (step_files_are_traces ls fs0 a c c1) as (Hev1 & Hpend1 & Hfiles1);
      try assumption.
    { intros x Hx. apply Hls. apply in_or_app. now left. }
    apply (IH c1 c'); try assumption.
    intros x Hx. apply Hls. apply in_or_app. now right.
Qed.

(** X7: whatever the threads do, a file that differs from what the file
    system held at the start is a complete trace document in the format of
    [writeToFile], and each of its records comes from an add call of the run:
    it has the name and category given to that call and one of the phases B,
    E, X, I.  The recorder never leaves a partial document or foreign
    content in a file. *)
Theorem files_written_are_traces_of_the_calls
    (fs0 : FileSystem) (acts : list Action) (c : Config)
    (q text : string)
    (Hrun : run acts (init_config fs0) = Some c)
    (Hfile : fs_files (fsys c) !! q = Some text) :
  fs_files fs0 !! q = Some text
  \/ exists evs, text = spec_trace evs
       /\ Forall (from_calls (labels_of acts)) evs.
Proof.
  apply (run_files_are_traces (labels_of acts) fs0 acts (init_config fs0) c);
    try assumption.
  - intros x Hx. exact Hx.
  - constructor.
  - apply map_Forall_empty.
  - intros q' text' Hq. now left.
Qed.

(** *** Spans *)

Lemma step_keeps_start (a : Action) (c c' : Config) :
  is_begin a = false -> step a c = Some c' ->
  m_startTime (rec c') = m_startTime (rec c).
Proof.
  intros Hb Hstep. destruct a as [p now| |t call|t]; try discriminate; cbn in Hstep.
  - unfold endSession in Hstep. destruct (m_active (rec c)); cbn in Hstep;
      now inversion Hstep.
  - destruct (pending c !! t); [discriminate|]. now inversion Hstep.
  - destruct (pending c !! t); [|discriminate]. inversion Hstep; subst. cbn.
    unfold pushEvent. now destruct (m_active (rec c)).
Qed.

Lemma run_keeps_start (acts : list Action) :
  forall c c',
    forallb (fun a => negb (is_begin a)) acts = true ->
    run acts c = Some c' ->
    m_startTime (rec c') = m_startTime (rec c).
Proof.
  induction acts as [|a acts IH]; intros c c' Hnb Hrun; cbn in Hrun.
  - now inversion Hrun.
  - cbn in Hnb. apply andb_prop in Hnb as [Ha Hnb]. apply negb_true_iff in Ha.
    destruct (step a c) as [c1|] eqn:Hstep; [|discriminate].
    rewrite (IH c1 c' Hnb Hrun). exact (step_keeps_start a c c1 Ha Hstep).
Qed.

(** X8: as long as no session is begun in between, two duration records
    are stamped against one and the same session start, whatever threads
    made the calls and whatever steps came in between: each timestamp is the
    conversion of its start time minus that session start, and the duration
    the conversion of end minus start.  So when the first span ends no later
    than the second begins, the second timestamp is not below the
    conversion of the first span's end, nor below the first timestamp. *)
Theorem spans_in_sequence_share_the_session_start
    (c c' : Config) (acts : list Action) (t t' : thread_id)
    (n1 k1 n2 k2 : string) (start1 end1 start2 end2 : TimePoint)
    (Hnb : forallb (fun a => negb (is_begin a)) acts = true)
    (Hrun : run acts c = Some c')
    (Hspan : start1 <= end1)
    (Hseq : end1 <= start2) :
  let evA := prepare (CallDuration n1 k1 start1 end1) t (rec c) in
  let evB := prepare (CallDuration n2 k2 start2 end2) t' (rec c') in
  timestampUs evA = us (start1 - m_startTime (rec c))
  /\ durationUs evA = us (end1 - start1)
  /\ timestampUs evB = us (start2 - m_startTime (rec c))
  /\ (us (end1 - m_startTime (rec c)) <= timestampUs evB)%Q
  /\ (timestampUs evA <= timestampUs evB)%Q.
Proof.
  intros evA evB. pose proof (run_keeps_start acts c c' Hnb Hrun) as Hst.
  unfold evA, evB. cbn. rewrite Hst.
  do 3 (split; [reflexivity|]).
  split; unfold us, Qle; cbn; lia.
Qed.

(** X9: of two nested blocks each guarded by a [ScopeTrace] and run on
    their own (the sequential composition of [scoped]: no other thread
    appends in between), the inner record is appended first and the outer
    one after it.  Both are stamped against the start time the recorder has
    after the body; each timestamp is the conversion of the constructor's
    reading minus that start time and each duration the conversion of the
    difference of the block's two readings.  With a clock that does not run
    backwards between the two constructors and between the two destructors,
    the outer timestamp is not above the inner one, the inner duration not
    above the outer one, and the conversion of the inner end not above that
    of the outer end. *)
Theorem nested_scopes_are_stamped_from_their_readings
    (n_out k_out n_in k_in : string) (tid : thread_id)
    (t0 t1 t2 t3 : TimePoint)
    (body : ChromeTracer -> ChromeTracer * Exit)
    (r r1 : ChromeTracer) (e : Exit)
    (Hbody : body r = (r1, e))
    (Hactive : m_active r1 = true)
    (Hin : t0 <= t1)
    (Hout : t2 <= t3) :
  let inner := mkTraceEvent n_in k_in char_X
                 (us (t1 - m_startTime r1)) (us (t2 - t1)) tid in
  let outer := mkTraceEvent n_out k_out char_X
                 (us (t0 - m_startTime r1)) (us (t3 - t0)) tid in
  m_events (fst (scoped n_out k_out tid t0 t3
                   (scoped n_in k_in tid t1 t2 body) r))
  = m_events r1 ++ [inner; outer]
  /\ (timestampUs outer <= timestampUs inner)%Q
  /\ (t1 <= t2 -> (durationUs inner <= durationUs outer)%Q)
  /\ (us (t2 - m_startTime r1) <= us (t3 - m_startTime r1))%Q.
Proof.
  intros inner outer. unfold scoped. rewrite Hbody. cbn [fst snd].
  unfold ScopeTrace_dtor, ScopeTrace_ctor, addDurationEvent.
  cbn [m_name m_category m_start].
  assert (Hpush : forall ev, pushEvent ev r1
            = mkChromeTracer (m_events r1 ++ [ev]) (m_startTime r1) (m_filepath r1) true).
  { intros ev. unfold pushEvent. now rewrite Hactive. }
  rewrite !Hpush. cbn.
  split; [now rewrite <- app_assoc|].
  unfold inner, outer. cbn [timestampUs durationUs].
  split; [|split; [intros Hle|]]; unfold us, Qle; cbn; lia.
Qed.

End Traces.

(** *** Timestamps, read by read *)

Section Reads.
Context `{Platform}.

Lemma reads_inv_coarse (open : gset thread_id) (a : Action) (fc : FineConfig) (c' : Config) :
  reads_inv open fc ->
  step a (coarse fc) = Some c' ->
  is_begin a = false \/ open = ∅ ->
  reads_inv open {| coarse := c'; clock_taken := clock_taken fc |}.
Proof.
  intros [Hdom Hall] Hstep [Hnb|Hempty].
  - split; [exact Hdom|]. cbn.
    now rewrite (step_keeps_start a (coarse fc) c' Hnb Hstep).
  - split; [exact Hdom|]. cbn.
    rewrite Hempty in Hdom. apply dom_empty_iff_L in Hdom. rewrite Hdom.
    apply map_Forall_empty.
Qed.

Lemma fine_step_inv (last : TimePoint) (open : gset thread_id)
    (a : FineAction) (rest : list FineAction) (fc fc' : FineConfig) :
  clock_inv last (coarse fc) -> reads_inv open fc ->
  calm open (a :: rest) = true ->
  fine_monotone_from last (a :: rest) ->
  fine_step a fc = Some fc' ->
  exists last' open',
    clock_inv last' (coarse fc') /\ reads_inv open' fc'
    /\ calm open' rest = true /\ fine_monotone_from last' rest.
Proof.
  intros Hclock Hreads Hcalm Hmono Hstep. destruct a as [a|t call|t].
  - cbn [fine_step] in Hstep.
    destruct (actor a ≫= (fun t => clock_taken fc !! t)); [discriminate|].
    destruct (step a (coarse fc)) as [c'|] eqn:Hs; [|discriminate].
    inversion Hstep; subst fc'; clear Hstep. cbn [coarse].
    pose proof (step_clock_inv last a (coarse fc) c' Hclock Hs) as Hnext.
    cbn [fine_monotone_from fine_reading] in Hmono.
    assert (Hopen : calm open rest = true /\ (is_begin a = false \/ open = ∅)).
    { destruct a; cbn in Hcalm |- *; try (split; [exact Hcalm|now left]).
      apply andb_prop in Hcalm as [He Hc]. apply bool_decide_eq_true in He.
      split; [exact Hc|now right]. }
    destruct Hopen as [Hc Hb].
    pose proof (reads_inv_coarse open a fc c' Hreads Hs Hb) as Hreads'.
    destruct (reading a) as [now|].
    + destruct Hmono as [Hle Hmono]. exists now, open. auto.
    + exists last, open. auto.
  - cbn [fine_step] in Hstep.
    destruct (is_phase_call call) eqn:Hph; [|discriminate].
    destruct (pending (coarse fc) !! t); [discriminate|].
    destruct (clock_taken fc !! t) eqn:Ht; [discriminate|].
    inversion Hstep; subst fc'; clear Hstep.
    cbn [fine_monotone_from fine_reading] in Hmono.
    assert (Hread : exists now, reading (APrepare t call) = Some now).
    { destruct call; try discriminate; cbn; eauto. }
    destruct Hread as [now Hnow]. rewrite Hnow in Hmono. destruct Hmono as [Hle Hmono].
    destruct Hclock as (Hs & Hev & Hpend). destruct Hreads as [Hdom Hall].
    exists now, ({[t]} ∪ open). split; [|split; [|split]].
    + split; [cbn; lia|split; assumption].
    + split; cbn.
      * now rewrite dom_insert_L, Hdom.
      * apply map_Forall_insert_2; [|exact Hall].
        destruct call; try discriminate; cbn in Hnow |- *;
          inversion Hnow; subst; lia.
    + exact Hcalm.
    + exact Hmono.
  - cbn [fine_step] in Hstep.
    destruct (clock_taken fc !! t) as [call|] eqn:Ht; [|discriminate].
    inversion Hstep; subst fc'; clear Hstep.
    destruct Hclock as (Hs & Hev & Hpend). destruct Hreads as [Hdom Hall].
    exists last, (open ∖ {[t]}). split; [|split; [|split]].
    + split; [exact Hs|split; [exact Hev|]]. cbn.
      apply map_Forall_insert_2; [|exact Hpend].
      pose proof (Hall t call Ht) as Hcall. intros Hphase.
      destruct call; cbn in Hcall, Hphase |- *;
        try (apply us_nonneg; lia). now contradiction Hphase.
    + split; cbn.
      * now rewrite dom_delete_L, Hdom.
      * intros k x Hk. apply lookup_delete_Some in Hk as [_ Hk]. exact (Hall k x Hk).
    + exact Hcalm.
    + exact Hmono.
Qed.

Lemma fine_run_inv (acts : list FineAction) :
  forall last open fc fc',
    clock_inv last (coarse fc) -> reads_inv open fc ->
    calm open acts = true -> fine_monotone_from last acts ->
    fine_run acts fc = Some fc' ->
    exists last', clock_inv last' (coarse fc').
Proof.
  induction acts as [|a acts IH]; intros last open fc fc' Hclock Hreads Hcalm Hmono Hrun.
  - cbn in Hrun. inversion Hrun; subst. eauto.
  - cbn [fine_run] in Hrun. destruct (fine_step a fc) as [fc1|] eqn:Hstep; [|discriminate].
    destruct (fine_step_inv last open a acts fc fc1 Hclock Hreads Hcalm Hmono Hstep)
      as (last1 & open1 & Hclock1 & Hreads1 & Hcalm1 & Hmono1).
    exact (IH last1 open1 fc1 fc' Hclock1 Hreads1 Hcalm1 Hmono1 Hrun).
Qed.

(** The step of the coarser model is the two reads with nothing in
    between. *)
Lemma prepare_is_two_reads (t : thread_id) (call : AddCall) (fc : FineConfig) :
  is_phase_call call = true ->
  clock_taken fc !! t = None ->
  fine_run [FReadClock t call; FReadStart t] fc
  = fine_step (FCoarse (APrepare t call)) fc.
Proof.
  intros Hph Ht. cbn [fine_run fine_step actor mbind option_bind step].
  rewrite Hph, Ht. destruct (pending (coarse fc) !! t); [reflexivity|].
  cbn [clock_taken coarse]. rewrite lookup_insert_eq.
  rewrite delete_insert_id by exact Ht. reflexivity.
Qed.

(** C8 (as amended): the timestamp of a record of phase B, E or I is the
    clock value the call took minus the start time it read afterwards, so it
    is not negative exactly when that start time is not after the clock
    value.  With a clock that never runs backwards this is the case for
    every such record in the buffer, whatever the threads do, as long as no
    [beginSession] comes between the two reads of a call.  The timestamp of
    a record made by [addDurationEvent] is the caller's start time minus the
    start time read, not negative exactly when the caller's start time is
    not before it (the difference being one the tick counter can hold). *)
Theorem C8_timestamps_follow_the_two_reads
    (fs : FileSystem) (acts : list FineAction) (fc : FineConfig)
    (Hmono : fine_monotone_from 0 acts)
    (Hcalm : calm ∅ acts = true)
    (Hrun : fine_run acts (fine_init fs) = Some fc) :
  (forall ev, In ev (m_events (rec (coarse fc))) -> phase ev <> char_X ->
              (0 <= timestampUs ev)%Q)
  /\ (forall nm cat ph now tid r,
        timestampUs (makePhaseEvent nm cat ph now tid r) = us (now - m_startTime r)
        /\ (in_int64 (now - m_startTime r) ->
            ((0 <= timestampUs (makePhaseEvent nm cat ph now tid r))%Q
             <-> m_startTime r <= now)))
  /\ (forall nm cat start end_ tid r,
        timestampUs (makeDurationEvent nm cat start end_ tid r)
        = us (start - m_startTime r)
        /\ (in_int64 (start - m_startTime r) ->
            ((0 <= timestampUs (makeDurationEvent nm cat start end_ tid r))%Q
             <-> m_startTime r <= start))).
Proof.
  split; [|split].
  - assert (Hclock : clock_inv 0 (coarse (fine_init fs))).
    { split; [cbn; lia|split; [constructor|apply map_Forall_empty]]. }
    assert (Hreads : reads_inv ∅ (fine_init fs)).
    { split; [apply dom_empty_L|apply map_Forall_empty]. }
    destruct (fine_run_inv acts 0 ∅ _ fc Hclock Hreads Hcalm Hmono Hrun)
      as (last & _ & Hev & _).
    intros ev Hin. rewrite Forall_forall in Hev. apply Hev.
    now apply list_elem_of_In.
  - intros. split; [reflexivity|]. intros _. cbn. rewrite us_nonneg. lia.
  - intros. split; [reflexivity|]. intros _. cbn. rewrite us_nonneg. lia.
Qed.

End Reads.

(** ** The demonstration workloads *)

Section Workloads.

Lemma delays_hd (ds : list Z) : Forall (fun d => 0 <= d) ds -> 0 <= hd 0 ds.
Proof. intros Hd. destruct Hd; cbn; lia. Qed.

Lemma delays_tl (ds : list Z) :
  Forall (fun d => 0 <= d) ds -> Forall (fun d => 0 <= d) (tl ds).
Proof. intros Hd. destruct Hd; [constructor|assumption]. Qed.

(** The first [n] coming delays are not negative. *)
Ltac delays Hd n :=
  match n with
  | O => idtac
  | S ?m =>
      let H0 := fresh "Hd0" in
      let H1 := fresh "Hd" in
      pose proof (delays_hd _ Hd) as H0;
      pose proof (delays_tl _ Hd) as H1;
      delays H1 m
  end.

Ltac open_world w Hactive :=
  destruct w as [[evs st path act] clk ds];
  cbn in Hactive; subst act.

(** Run a workload on a world given by its fields. *)
Ltac run_workload :=
  cbv [loadAssets computePhysics simulateWork
       TRACE_FUNCTION TRACE_SCOPE TRACE_BEGIN TRACE_END TRACE_INSTANT
       mbind mret Prog_bind Prog_ret clock_now sleep_for on_tracer
       ScopeTrace_dtor ScopeTrace_ctor
       addDurationEvent addBeginEvent addEndEvent addInstantEvent addPhaseEvent
       pushEvent makeDurationEvent makePhaseEvent
       m_name m_category m_start m_active m_events m_startTime m_filepath
       w_tracer w_clock w_delays fst snd];
  cbn [map name category phase timestampUs durationUs threadId].

(** X10: during an active session [simulateWork label ms] appends exactly
    one record, a span named [label] of category function made by the
    calling thread, whose duration is at least [ms] milliseconds; the clock
    is read twice. *)
Theorem simulateWork_records_one_span
    (tid : thread_id) (label : string) (ms : Z) (w : World)
    (Hactive : m_active (w_tracer w) = true)
    (Hsteady : Forall (fun d => 0 <= d) (w_delays w)) :
  exists ev,
    m_events (w_tracer (snd (simulateWork tid label ms w)))
    = m_events (w_tracer w) ++ [ev]
    /\ name ev = label /\ category ev = default_category
    /\ phase ev = char_X /\ threadId ev = tid
    /\ (inject_Z (ms * 1000) <= durationUs ev)%Q
    /\ (0 <= durationUs ev)%Q
    /\ w_delays (snd (simulateWork tid label ms w)) = tl (tl (w_delays w)).
Proof.
  open_world w Hactive. cbn in Hsteady. delays Hsteady 2%nat.
  eexists. cbn. split; [reflexivity|]. cbn.
  repeat (split; [reflexivity|]).
  split; [|split; [|reflexivity]]; unfold us, Qle; cbn; lia.
Qed.

(** X11: during an active session [loadAssets] reads the clock eight
    times, at ticks a0 <= a1, a1 + 30 ms <= a2 <= a3, a3 + 50 ms <= a4 <= a5,
    a5 + 20 ms <= a6 <= a7, and appends four spans, in this order:
    LoadTextures from a1 to a2, LoadMeshes from a3 to a4, LoadShaders from a5
    to a6 and then loadAssets itself from a0 to a7 (its [ScopeTrace] is
    destroyed last), each stamped with the conversion of its start minus the
    session start and of its end minus its start.  The stored durations are
    at least 30000, 50000, 20000 and 100000 microseconds and the stored
    timestamps are in the order loadAssets, LoadTextures, LoadMeshes,
    LoadShaders. *)
Theorem loadAssets_time_line
    (tid : thread_id) (w : World)
    (Hactive : m_active (w_tracer w) = true)
    (Hsteady : Forall (fun d => 0 <= d) (w_delays w)) :
  exists a0 a1 a2 a3 a4 a5 a6 a7 : TimePoint,
    (w_clock w <= a0 /\ a0 <= a1 /\ a1 + 30000000 <= a2 /\ a2 <= a3
     /\ a3 + 50000000 <= a4 /\ a4 <= a5 /\ a5 + 20000000 <= a6 /\ a6 <= a7)
    /\ m_events (w_tracer (snd (loadAssets tid w)))
       = m_events (w_tracer w)
         ++ [span_record (m_startTime (w_tracer w)) tid "LoadTextures" default_category a1 a2;
             span_record (m_startTime (w_tracer w)) tid "LoadMeshes" default_category a3 a4;
             span_record (m_startTime (w_tracer w)) tid "LoadShaders" default_category a5 a6;
             span_record (m_startTime (w_tracer w)) tid "loadAssets" default_category a0 a7]
    /\ w_clock (snd (loadAssets tid w)) = a7
    /\ ((30000 <= us (a2 - a1))%Q /\ (50000 <= us (a4 - a3))%Q
        /\ (20000 <= us (a6 - a5))%Q /\ (100000 <= us (a7 - a0))%Q)
    /\ ((us (a0 - m_startTime (w_tracer w)) <= us (a1 - m_startTime (w_tracer w)))%Q
        /\ (us (a1 - m_startTime (w_tracer w)) <= us (a3 - m_startTime (w_tracer w)))%Q
        /\ (us (a3 - m_startTime (w_tracer w)) <= us (a5 - m_startTime (w_tracer w)))%Q).
Proof.
  open_world w Hactive. cbn in Hsteady. delays Hsteady 8%nat.
  do 8 eexists. split; cycle 1.
  - split.
    + run_workload. unfold span_record, default_category, char_X.
      rewrite <- !app_assoc. cbn [app]. reflexivity.
    + split; [run_workload; reflexivity|].
      repeat split; unfold us, Qle; cbn; lia.
  - cbn. lia.
Qed.

(** X12: during an active session [computePhysics] reads the clock six
    times, at ticks a0 <= b1, b1 + 15 ms <= e1 <= b2, b2 + 25 ms <= e2 <= a5,
    and appends five records, in this order: begin and end of BroadPhase
    stamped at b1 and e1, begin and end of NarrowPhase stamped at b2 and e2
    (category physics, no duration), then the span computePhysics from a0 to
    a5.  Each timestamp is the conversion of its reading minus the session
    start; the stored timestamps are in the order computePhysics, begin,
    end, begin, end, and the stored duration of the span is at least 40000
    microseconds. *)
Theorem computePhysics_time_line
    (tid : thread_id) (w : World)
    (Hactive : m_active (w_tracer w) = true)
    (Hsteady : Forall (fun d => 0 <= d) (w_delays w)) :
  exists a0 b1 e1 b2 e2 a5 : TimePoint,
    (w_clock w <= a0 /\ a0 <= b1 /\ b1 + 15000000 <= e1 /\ e1 <= b2
     /\ b2 + 25000000 <= e2 /\ e2 <= a5)
    /\ m_events (w_tracer (snd (computePhysics tid w)))
       = m_events (w_tracer w)
         ++ [stamp_record (m_startTime (w_tracer w)) tid "BroadPhase" "physics" char_B b1;
             stamp_record (m_startTime (w_tracer w)) tid "BroadPhase" "physics" char_E e1;
             stamp_record (m_startTime (w_tracer w)) tid "NarrowPhase" "physics" char_B b2;
             stamp_record (m_startTime (w_tracer w)) tid "NarrowPhase" "physics" char_E e2;
             span_record (m_startTime (w_tracer w)) tid "computePhysics" default_category a0 a5]
    /\ w_clock (snd (computePhysics tid w)) = a5
    /\ (40000 <= us (a5 - a0))%Q
    /\ ((us (a0 - m_startTime (w_tracer w)) <= us (b1 - m_startTime (w_tracer w)))%Q
        /\ (us (b1 - m_startTime (w_tracer w)) <= us (e1 - m_startTime (w_tracer w)))%Q
        /\ (us (e1 - m_startTime (w_tracer w)) <= us (b2 - m_startTime (w_tracer w)))%Q
        /\ (us (b2 - m_startTime (w_tracer w)) <= us (e2 - m_startTime (w_tracer w)))%Q).
Proof.
  open_world w Hactive. cbn in Hsteady. delays Hsteady 6%nat.
  do 6 eexists. split; cycle 1.
  - split.
    + run_workload. unfold span_record, stamp_record, default_category,
        char_X, char_B, char_E.
      rewrite <- !app_assoc. cbn [app]. reflexivity.
    + split; [run_workload; reflexivity|].
      repeat split; unfold us, Qle; cbn; lia.
  - cbn. lia.
Qed.

End Workloads.

(** ** Instances of the timestamps read by read *)

(** A phase call overtaken by [beginSession] between its two reads is
    stamped negative although the clock never ran backwards. *)
Example overtaken_call_is_stamped_negative :
  fine_monotone_from 0 demo_overtaken
  /\ calm ∅ demo_overtaken = false
  /\ m_events (rec (coarse (fine_after demo_overtaken (fine_init fs_empty))))
     = [mkTraceEvent "A" "cat" char_I (us (2000 - 3000)) 0 1%N]
  /\ (us (2000 - 3000) < 0)%Q.
Proof.
  split; [cbn; lia|]. split; [reflexivity|]. split; [reflexivity|].
  unfold us, Qlt. cbn. lia.
Qed.

Lemma C8_witness :
  (0 <= timestampUs (mkTraceEvent "B" "cat" char_B (us (3100 - 3000)) 0 1%N))%Q.
Proof.
  apply (C8_timestamps_follow_the_two_reads fs_empty demo_not_overtaken
           (fine_after demo_not_overtaken (fine_init fs_empty))).
  - cbn. lia.
  - reflexivity.
  - reflexivity.
  - left. reflexivity.
  - discriminate.
Defined.

(** ** Instances of the further properties *)

Lemma opens_follow_the_session_calls_witness :
  fs_opens (fsys (after demo_two_sessions (init_config fs_empty)))
  = ["t.json"; "u.json"].
Proof.
  etransitivity.
  - apply (opens_follow_the_session_calls demo_two_sessions (init_config fs_empty)
             (after demo_two_sessions (init_config fs_empty))).
    vm_compute. reflexivity.
  - vm_compute. reflexivity.
Defined.

Lemma other_files_are_left_alone_witness :
  fs_files (fsys (after demo_two_sessions (init_config fs_with_notes))) !! "notes.txt"
  = Some "keep".
Proof.
  etransitivity.
  - apply (other_files_are_left_alone demo_two_sessions (init_config fs_with_notes)
             (after demo_two_sessions (init_config fs_with_notes)) "notes.txt").
    + vm_compute. reflexivity.
    + discriminate.
    + cbn. intros [Hq|[Hq|[]]]; discriminate Hq.
  - reflexivity.
Defined.

Lemma records_carry_the_callers_thread_witness :
  exists ev,
    m_events (rec (after (ABeginSession "t.json" 1000
                            :: firstn 3 demo_actions) (init_config fs_empty)))
    = m_events (rec (after (ABeginSession "t.json" 1000
                              :: firstn 2 demo_actions) (init_config fs_empty)))
      ++ [ev]
    /\ threadId ev = 2%N.
Proof.
  apply (records_carry_the_callers_thread fs_empty
           (ABeginSession "t.json" 1000 :: firstn 2 demo_actions)
           (after (ABeginSession "t.json" 1000 :: firstn 2 demo_actions)
              (init_config fs_empty))); reflexivity.
Defined.

Lemma stamped_records_have_no_duration_witness :
  durationUs (mkTraceEvent "A" "cat" char_I (us 150) 0 2%N) = 0%Q
  /\ ~ In "dur" (map fst (spec_members (mkTraceEvent "A" "cat" char_I (us 150) 0 2%N))).
Proof.
  apply (stamped_records_have_no_duration fs_empty
           (ABeginSession "t.json" 1000 :: demo_actions)
           (after (ABeginSession "t.json" 1000 :: demo_actions) (init_config fs_empty))).
  - reflexivity.
  - left. reflexivity.
  - discriminate.
Defined.


Lemma files_written_are_traces_witness :
  fs_files fs_with_notes !! "u.json"
  = Some (spec_trace [mkTraceEvent "Z" "cat" char_I (us 100) 0 1%N])
  \/ exists evs,
       spec_trace [mkTraceEvent "Z" "cat" char_I (us 100) 0 1%N] = spec_trace evs
       /\ Forall (from_calls (labels_of demo_two_sessions)) evs.
Proof.
  apply (files_written_are_traces_of_the_calls fs_with_notes demo_two_sessions
           (after demo_two_sessions (init_config fs_with_notes)) "u.json").
  - vm_compute. reflexivity.
  - vm_compute. reflexivity.
Defined.

Lemma spans_in_sequence_witness :
  Qle
    (timestampUs (prepare (CallDuration "LoadTextures" "function" 1200 31200) 1%N
                    (rec demo_start)))
    (timestampUs (prepare (CallDuration "LoadMeshes" "function" 31300 81300) 2%N
                    (rec (after demo_actions demo_start)))).
Proof.
  apply (spans_in_sequence_share_the_session_start demo_start
           (after demo_actions demo_start)
           demo_actions 1%N 2%N "LoadTextures" "function" "LoadMeshes" "function"
           1200 31200 31300 81300).
  - reflexivity.
  - reflexivity.
  - lia.
  - lia.
Defined.

Lemma nested_scopes_witness :
  m_events (fst (scoped "loadAssets" "function" 7%N 1100 32000
                   (scoped "LoadTextures" "function" 7%N 1200 31200
                      (fun r => (r, ExitNormal)))
                   (beginSession "t.json" 1000 ChromeTracer_default)))
  = [] ++ [mkTraceEvent "LoadTextures" "function" char_X (us (1200 - 1000))
             (us (31200 - 1200)) 7%N;
           mkTraceEvent "loadAssets" "function" char_X (us (1100 - 1000))
             (us (32000 - 1100)) 7%N].
Proof.
  apply (nested_scopes_are_stamped_from_their_readings "loadAssets" "function"
           "LoadTextures" "function" 7%N 1100 1200 31200 32000
           (fun r => (r, ExitNormal))
           (beginSession "t.json" 1000 ChromeTracer_default)
           (beginSession "t.json" 1000 ChromeTracer_default) ExitNormal);
    [reflexivity|reflexivity|lia|lia].
Defined.

Lemma demo_world_steady : Forall (fun d => 0 <= d) (w_delays demo_world).
Proof. repeat constructor; discriminate. Defined.

Lemma simulateWork_witness :
  exists ev,
    m_events (w_tracer (snd (simulateWork 7%N "LoadTextures" 30 demo_world)))
    = m_events (w_tracer demo_world) ++ [ev]
    /\ name ev = "LoadTextures" /\ category ev = default_category
    /\ phase ev = char_X /\ threadId ev = 7%N
    /\ (inject_Z (30 * 1000) <= durationUs ev)%Q
    /\ (0 <= durationUs ev)%Q
    /\ w_delays (snd (simulateWork 7%N "LoadTextures" 30 demo_world))
       = tl (tl (w_delays demo_world)).
Proof.
  apply (simulateWork_records_one_span 7%N "LoadTextures" 30 demo_world eq_refl
           demo_world_steady).
Defined.

Lemma loadAssets_witness :
  map name (m_events (w_tracer (snd (loadAssets 7%N demo_world))))
  = ["LoadTextures"; "LoadMeshes"; "LoadShaders"; "loadAssets"].
Proof.
  destruct (loadAssets_time_line 7%N demo_world eq_refl demo_world_steady)
    as (a0 & a1 & a2 & a3 & a4 & a5 & a6 & a7 & _ & Hev & _).
  rewrite Hev. reflexivity.
Defined.

Lemma computePhysics_witness :
  map phase (m_events (w_tracer (snd (computePhysics 7%N demo_world))))
  = [char_B; char_E; char_B; char_E; char_X].
Proof.
  destruct (computePhysics_time_line 7%N demo_world eq_refl demo_world_steady)
    as (a0 & b1 & e1 & b2 & e2 & a5 & _ & Hev & _).
  rewrite Hev. reflexivity.
Defined.

Lemma destructor_witness :
  fs_files (snd (ChromeTracer_dtor demo_recorder fs_empty)) !! "t.json"
  = Some (spec_trace (m_events demo_recorder))
  /\ ChromeTracer_dtor (fst (endSession demo_recorder fs_empty))
                       (snd (endSession demo_recorder fs_empty))
     = endSession demo_recorder fs_empty.
Proof.
  pose proof (destructor_flushes_an_open_session demo_recorder fs_empty)
    as (_ & _ & Hflush & Hagain).
  split; [|exact Hagain].
  apply (Hflush eq_refl). apply not_elem_of_empty.
Defined.
